(** * test-trpc: the example tRPC routers, context factory and client links

    A shallow embedding of the TypeScript sources of the repository:
    - [server/trpc/routers/index.ts]: [appRouter] with [hello] and [teststream];
    - [server/trpc/init.ts]: [createTRPCContext], [baseProcedure], [createTRPCRouter];
    - [server/api/trpc/[trpc].ts]: the Nuxt handler configuration;
    - [plugins/trpc.ts]: the client link chain with [splitLink];
    - [trpc_routers.md]: the merged router with [userRouter] and [postRouter].

    JavaScript values are an inductive type, handlers are functions in a small
    effect monad (clock reading, console output, exceptions), the async
    generator of [teststream] is a state machine stepped by [next()]. *)

From Stdlib Require Import Ascii String.
From stdpp Require Import base list strings pretty.

Local Open Scope string_scope.
Local Open Scope list_scope.
Set Warnings "-register-all".

(** ** JavaScript values *)

(** Deserialized JSON payloads and the objects the handlers build. Numbers are
    integers: no handler of the repository computes with fractions. *)
Inductive value : Type :=
| VUndefined
| VNull
| VBool (b : bool)
| VNum (n : Z)
| VStr (s : string)
| VArr (elems : list value)
| VObj (props : list (string * value)).

Inductive Exn : Type :=
| TypeError (msg : string).

(** Own data property [k] of an object given by its property list. *)
Fixpoint lookup_prop (k : string) (props : list (string * value)) : option value :=
  match props with
  | [] => None
  | (k', v) :: rest => if String.eqb k k' then Some v else lookup_prop k rest
  end.

(** [o[k] = v] on a property list: overwrite in place or append. *)
Fixpoint set_prop (k : string) (v : value) (props : list (string * value))
  : list (string * value) :=
  match props with
  | [] => [(k, v)]
  | (k', v') :: rest =>
      if String.eqb k k' then (k, v) :: rest else (k', v') :: set_prop k v rest
  end.

(** Object literal [{ ...props, ...more }]: later keys win. *)
Definition spread (props more : list (string * value)) : list (string * value) :=
  fold_left (fun acc kv => set_prop kv.1 kv.2 acc) more props.

(** [ToString] as used by template literals. *)
Fixpoint ToString (v : value) : string :=
  match v with
  | VUndefined => "undefined"
  | VNull => "null"
  | VBool true => "true"
  | VBool false => "false"
  | VNum n => pretty n
  | VStr s => s
  | VArr elems =>
      (fix join (l : list value) : string :=
         match l with
         | [] => ""
         | [e] => match e with VUndefined | VNull => "" | _ => ToString e end
         | e :: rest =>
             match e with VUndefined | VNull => "" | _ => ToString e end
               +:+ "," +:+ join rest
         end) elems
  | VObj _ => "[object Object]"
  end.

(** ** Handler effects *)

(** What a handler can do besides computing: read the clock ([Date.now()]),
    write to the console, throw. Every handler of the repository reads the
    clock at most once, so one reading per invocation is given as [now]. *)
Record Env : Type := { now : Z }.

Inductive Completion (A : Type) : Type :=
| Normal (a : A)
| Throw (e : Exn).
Arguments Normal {A} a.
Arguments Throw {A} e.

(** One entry per [console.log] call: its argument list. *)
Definition Console : Type := list (list value).

Definition Eff (A : Type) : Type := Env -> Completion A * Console.

Definition ret {A} (a : A) : Eff A := fun _ => (Normal a, []).

Definition bind {A B} (m : Eff A) (f : A -> Eff B) : Eff B :=
  fun env =>
    match m env with
    | (Normal a, out) => let '(r, out') := f a env in (r, out ++ out')
    | (Throw e, out) => (Throw e, out)
    end.

Definition Date_now : Eff Z := fun env => (Normal (now env), []).
Definition console_log (args : list value) : Eff unit := fun _ => (Normal tt, [args]).

Notation "'let!' x ':=' m 'in' k" := (bind m (fun x => k))
  (at level 10, x name, m at level 100, k at level 200).
Notation "'do!' m 'in' k" := (bind m (fun _ => k))
  (at level 10, m at level 100, k at level 200).

(** Property access [v.k]: throws on [undefined] and [null], gives the own
    property of an object and [undefined] where there is none. *)
Definition prop_of (v : value) (k : string) : Completion value :=
  match v with
  | VUndefined => Throw (TypeError "Cannot read properties of undefined")
  | VNull => Throw (TypeError "Cannot read properties of null")
  | VObj props => Normal (default VUndefined (lookup_prop k props))
  | _ => Normal VUndefined
  end.

Definition prop (v : value) (k : string) : Eff value :=
  fun _ => (prop_of v k, []).

(** ** zod schemas *)

Module z.

Inductive type_name : Type :=
| t_undefined | t_null | t_boolean | t_number | t_string | t_array | t_object.

Definition type_of (v : value) : type_name :=
  match v with
  | VUndefined => t_undefined
  | VNull => t_null
  | VBool _ => t_boolean
  | VNum _ => t_number
  | VStr _ => t_string
  | VArr _ => t_array
  | VObj _ => t_object
  end.

Inductive issue_code : Type :=
| invalid_type (expected received : type_name)
| too_small (minimum : nat)
| invalid_email.

(** An issue names the offending field by its path from the root. *)
Record issue : Type := { code : issue_code; path : list String.string }.

Inductive check : Type :=
| min (n : nat)
| email (re : String.string -> bool).

Inductive schema : Type :=
| string (checks : list check)
| object (shape : list (String.string * schema)).

Inductive SafeParse : Type :=
| success (data : value)
| failure (issues : list issue).

(** [min] compares the length of the string, counted in characters of the
    model. *)
Definition run_check (s : String.string) (c : check) : list issue :=
  match c with
  | min n =>
      if Nat.leb n (String.length s) then []
      else [{| code := too_small n; path := [] |}]
  | email re =>
      if re s then [] else [{| code := invalid_email; path := [] |}]
  end.

Definition under (k : String.string) (i : issue) : issue :=
  {| code := code i; path := k :: path i |}.

(** [schema.safeParse(v)]. An object schema reads each key of its shape
    from the input, reports every failing key, and keeps only the keys of
    the shape in its output (unknown keys are stripped). *)
Fixpoint safeParse (sch : schema) (v : value) : SafeParse :=
  match sch with
  | string checks =>
      match v with
      | VStr s =>
          match flat_map (run_check s) checks with
          | [] => success (VStr s)
          | iss => failure iss
          end
      | _ => failure [{| code := invalid_type t_string (type_of v); path := [] |}]
      end
  | object shape =>
      match v with
      | VObj props =>
          let fields :=
            (fix fields (sh : list (String.string * schema))
               : list (String.string * value) * list issue :=
               match sh with
               | [] => ([], [])
               | (k, sk) :: rest =>
                   let '(out, iss) := fields rest in
                   match safeParse sk (default VUndefined (lookup_prop k props)) with
                   | success d => ((k, d) :: out, iss)
                   | failure iss' => (out, map (under k) iss' ++ iss)
                   end
               end) shape in
          match fields.2 with
          | [] => success (VObj fields.1)
          | iss => failure iss
          end
      | _ => failure [{| code := invalid_type t_object (type_of v); path := [] |}]
      end
  end.

End z.

(** ** tRPC procedures, generators and routers *)

(** The [opts] argument of a resolver. *)
Module Opts.
Record t : Type := { ctx : value; input : value }.
End Opts.

Inductive ProcedureType : Type := Query | Mutation | Subscription.

(** One [next()] call on an async generator: it runs to the next [yield], to
    the end of the body or to a throw; [awaited] lists the timer delays (ms)
    awaited on the way. *)
Inductive Step (S : Type) : Type :=
| Yield (awaited : list Z) (v : value) (s : S)
| Return (awaited : list Z)
| Raise (awaited : list Z) (e : Exn).
Arguments Yield {S} awaited v s.
Arguments Return {S} awaited.
Arguments Raise {S} awaited e.

(** An [async function*] body: its suspension points and what [next()] does
    at each. *)
Record Generator : Type := {
  gen_state : Type;
  gen_start : gen_state;
  gen_next : gen_state -> Step gen_state
}.

Inductive Resolver : Type :=
| Resolves (fn : Opts.t -> Eff value)
| Generates (fn : Opts.t -> Generator).

Record Procedure : Type := {
  proc_type : ProcedureType;
  proc_input : option z.schema;
  proc_resolver : Resolver
}.

(** The procedure builder: [t.procedure], [.input(schema)] and the three
    finishers [.query(fn)], [.mutation(fn)], [.subscription(fn)]. *)
Record ProcedureBuilder : Type := { builder_input : option z.schema }.

Definition procedure : ProcedureBuilder := {| builder_input := None |}.

Definition input (sch : z.schema) (b : ProcedureBuilder) : ProcedureBuilder :=
  {| builder_input := Some sch |}.

Definition query (fn : Opts.t -> Eff value) (b : ProcedureBuilder) : Procedure :=
  {| proc_type := Query; proc_input := builder_input b; proc_resolver := Resolves fn |}.

Definition mutation (fn : Opts.t -> Eff value) (b : ProcedureBuilder) : Procedure :=
  {| proc_type := Mutation; proc_input := builder_input b; proc_resolver := Resolves fn |}.

Definition subscription (fn : Opts.t -> Generator) (b : ProcedureBuilder) : Procedure :=
  {| proc_type := Subscription; proc_input := builder_input b;
     proc_resolver := Generates fn |}.

(** Method chaining [b.m(args)]. *)
Notation "b '.>' m" := (m b) (at level 50, left associativity, only parsing).

(** A router record: each key holds a procedure or a nested router. *)
Inductive Router : Type :=
| Leaf (p : Procedure)
| Node (children : list (string * Router)).

Definition router (record : list (string * Router)) : Router := Node record.

(** ** server/trpc/init.ts *)

(** The part of an H3 event the server code reads: request line, headers and
    the [event.context] object. *)
Record H3Event : Type := {
  method : string;
  url : string;
  headers : list (string * string);
  context : list (string * value)
}.

Definition createTRPCContext (event : H3Event) : value :=
  VObj [("auth", default VUndefined (lookup_prop "auth" (context event)))].

Definition createTRPCRouter : list (string * Router) -> Router := router.
Definition baseProcedure : ProcedureBuilder := procedure.

(** ** server/trpc/routers/index.ts *)

Definition hello : Procedure :=
  baseProcedure
    .> input (z.object [("text", z.string [])])
    .> query (fun opts =>
         let! text := prop (Opts.input opts) "text" in
         ret (VObj [("greeting", VStr ("hello " +:+ ToString text))])).

(** Suspension points of the [teststream] generator body. *)
Inductive teststream_state : Type :=
| Fresh
| AtYield (text : value) (i : Z).

(** The loop test [i < 5] followed by the [yield] or by the end of the body. *)
Definition teststream_loop (awaited : list Z) (text : value) (i : Z)
  : Step teststream_state :=
  if (i <? 5)%Z
  then Yield awaited
         (VStr ("hello " +:+ ToString text +:+ " " +:+ ToString (VNum i)))
         (AtYield text i)
  else Return awaited.

Definition teststream_next (opts : Opts.t) (s : teststream_state)
  : Step teststream_state :=
  match s with
  | Fresh =>
      match prop_of (Opts.input opts) "text" with
      | Throw e => Raise [] e
      | Normal text => teststream_loop [] text 0
      end
  | AtYield text i => teststream_loop [1000%Z] text (i + 1)
  end.

Definition teststream_body (opts : Opts.t) : Generator :=
  {| gen_state := teststream_state;
     gen_start := Fresh;
     gen_next := teststream_next opts |}.

Definition teststream : Procedure :=
  baseProcedure
    .> input (z.object [("text", z.string [])])
    .> subscription teststream_body.

Definition appRouter : Router :=
  createTRPCRouter [
    ("hello", Leaf hello);
    ("teststream", Leaf teststream)
  ].

(** ** server/api/trpc/[trpc].ts *)

Record NuxtHandlerOptions : Type := {
  endpoint : string;
  handler_router : Router;
  createContext : H3Event -> value
}.

Definition createTRPCNuxtHandler (o : NuxtHandlerOptions) : NuxtHandlerOptions := o.

Definition nuxtHandler : NuxtHandlerOptions :=
  createTRPCNuxtHandler
    {| endpoint := "/api/trpc";
       handler_router := appRouter;
       createContext := createTRPCContext |}.

(** ** plugins/trpc.ts *)

#[global] Instance ProcedureType_eq_dec : EqDecision ProcedureType.
Proof. solve_decision. Defined.

(** An operation as the client links see it. *)
Record Operation : Type := {
  op_id : Z;
  op_type : ProcedureType;
  op_path : string;
  op_input : value;
  op_context : list (string * value)
}.

Inductive Link : Type :=
| loggerLink
| httpSubscriptionLink (link_url : string)
| httpBatchLink (link_url : string)
| splitLink (condition : Operation -> bool) (on_true on_false : Link).

Inductive Transport : Type :=
| Streaming (transport_url : string)
| Batched (transport_url : string).

(** Where a link sends an operation: [loggerLink] passes it on to the rest of
    the chain, [splitLink] to the branch its condition picks, the two HTTP
    links end the chain. *)
Fixpoint runLink (l : Link) (op : Operation) (next : option Transport)
  : option Transport :=
  match l with
  | loggerLink => next
  | httpSubscriptionLink u => Some (Streaming u)
  | httpBatchLink u => Some (Batched u)
  | splitLink condition on_true on_false =>
      if condition op then runLink on_true op None else runLink on_false op None
  end.

Fixpoint createChain (links : list Link) (op : Operation) : option Transport :=
  match links with
  | [] => None
  | l :: rest => runLink l op (createChain rest op)
  end.

Definition links : list Link :=
  [ loggerLink;
    splitLink (fun op => bool_decide (op_type op = Subscription))
      (httpSubscriptionLink "/api/trpc")
      (httpBatchLink "/api/trpc") ].

(** ** trpc_routers.md: the merged router *)

Module MergedRouters.
Section Routers.

(** The pattern behind [z.string().email()], which the document does not
    spell out. *)
Variable emailRegex : string -> bool.

Definition publicProcedure : ProcedureBuilder := procedure.

Definition own_props (v : value) : list (string * value) :=
  match v with VObj props => props | _ => [] end.

Definition getById : Procedure :=
  publicProcedure
    .> input (z.object [("id", z.string [])])
    .> query (fun opts =>
         let! id := prop (Opts.input opts) "id" in
         do! console_log [VStr ("Fetching user with ID: " +:+ ToString id)] in
         ret (VObj [("id", id);
                    ("name", VStr ("User " +:+ ToString id));
                    ("email", VStr ("user" +:+ ToString id +:+ "@example.com"))])).

Definition create : Procedure :=
  publicProcedure
    .> input (z.object [("name", z.string [z.min 2]);
                        ("email", z.string [z.email emailRegex])])
    .> mutation (fun opts =>
         do! console_log [VStr "Creating new user:"; Opts.input opts] in
         let! t := Date_now in
         ret (VObj (spread [("id", VStr ("user_" +:+ ToString (VNum t)))]
                      (own_props (Opts.input opts))))).

Definition userRouter : Router :=
  router [("getById", Leaf getById); ("create", Leaf create)].

Definition getAll : Procedure :=
  publicProcedure
    .> query (fun _ =>
         do! console_log [VStr "Fetching all posts"] in
         ret (VArr [
           VObj [("id", VStr "post1"); ("title", VStr "First Post");
                 ("content", VStr "This is the content of the first post.")];
           VObj [("id", VStr "post2"); ("title", VStr "Second Post");
                 ("content", VStr "More exciting content here!")] ])).

Definition add : Procedure :=
  publicProcedure
    .> input (z.object [("title", z.string [z.min 5]);
                        ("content", z.string [z.min 10])])
    .> mutation (fun opts =>
         do! console_log [VStr "Adding new post:"; Opts.input opts] in
         let! t := Date_now in
         ret (VObj (spread [("id", VStr ("post_" +:+ ToString (VNum t)))]
                      (own_props (Opts.input opts))))).

Definition postRouter : Router :=
  router [("getAll", Leaf getAll); ("add", Leaf add)].

Definition greeting : Procedure :=
  publicProcedure .> query (fun _ => ret (VStr "Hello from top-level router!")).

Definition appRouter : Router :=
  router [
    ("user", userRouter);
    ("post", postRouter);
    ("greeting", Leaf greeting)
  ].

End Routers.
End MergedRouters.

(** ** Calling a procedure *)

(** The input rule of a procedure applied to the request payload; a procedure
    declared without [.input] gets no input. *)
Definition validate (p : Procedure) (payload : value) : z.SafeParse :=
  match proc_input p with
  | None => z.success VUndefined
  | Some sch => z.safeParse sch payload
  end.

Inductive Called : Type :=
| Returned (v : value)
| Threw (e : Exn)
| Started (g : Generator)
| Rejected (issues : list z.issue).

(** A procedure as the builder assembles it: the input rule is applied to the
    raw payload, and the resolver runs on the parsed input only. *)
Definition callProcedure (p : Procedure) (env : Env) (ctx payload : value)
  : Called * Console :=
  match validate p payload with
  | z.failure issues => (Rejected issues, [])
  | z.success data =>
      let opts := {| Opts.ctx := ctx; Opts.input := data |} in
      match proc_resolver p with
      | Resolves fn =>
          let '(res, out) := fn opts env in
          (match res with Normal v => Returned v | Throw e => Threw e end, out)
      | Generates fn => (Started (fn opts), [])
      end
  end.

(** ** The request dispatcher *)

(** Modelled from the spec: the error taxonomy of section 7. Dispatch, batching
    and stream delivery are done by the tRPC library, which the repository
    only configures; they follow sections 2, 4 and 5 of the specification. *)
Inductive ErrorCode : Type := NOT_FOUND | VALIDATION_ERROR | INTERNAL | CANCELLED.

Record Call : Type := { call_path : string; call_input : value }.

(** Modelled from the spec: one response slot, [{ok: result}] or
    [{error: detail}], or the opened value sequence of a subscription. *)
Inductive Outcome : Type :=
| Result (result : value)
| Opened (g : Generator)
| Failure (code : ErrorCode) (detail : list z.issue).

(** Modelled from the spec: what an observer of the server sees, in order. *)
Inductive Event : Type :=
| ContextCreated (ctx : value)
| Resolving (path : string)
| Invoked (path : string) (opts : Opts.t)
| Logged (args : list value)
| Delivered (v : value).

(** [path.split('.')] *)
Fixpoint split_path (s : string) : list string :=
  match s with
  | EmptyString => [""]
  | String c rest =>
      if Ascii.eqb c "."%char
      then "" :: split_path rest
      else match split_path rest with
           | seg :: segs => String c seg :: segs
           | [] => [String c ""]
           end
  end.

Fixpoint child (k : string) (children : list (string * Router)) : option Router :=
  match children with
  | [] => None
  | (k', r) :: rest => if String.eqb k k' then Some r else child k rest
  end.

(** Modelled from the spec: "resolution walks the nesting tree segment by
    segment, failing fast on any missing segment" (section 4.1). *)
Fixpoint walk (segments : list string) (r : Router) : option Procedure :=
  match segments, r with
  | [], Leaf p => Some p
  | [], Node _ => None
  | _ :: _, Leaf _ => None
  | seg :: rest, Node children =>
      match child seg children with
      | Some r' => walk rest r'
      | None => None
      end
  end.

(** Modelled from the spec: [resolve(path)] of section 4.1. *)
Definition resolve (r : Router) (path : string) : option Procedure :=
  walk (split_path path) r.

(** Modelled from the spec: one call through the dispatcher (sections 4.1,
    4.3 and 7): resolve the path or answer NOT_FOUND; evaluate the input rule
    or answer VALIDATION_ERROR with the issues; only then run the handler, a
    throw becoming INTERNAL. *)
Definition dispatch (r : Router) (env : Env) (ctx : value) (c : Call)
  : Outcome * list Event :=
  match resolve r (call_path c) with
  | None => (Failure NOT_FOUND [], [Resolving (call_path c)])
  | Some p =>
      match validate p (call_input c) with
      | z.failure issues =>
          (Failure VALIDATION_ERROR issues, [Resolving (call_path c)])
      | z.success data =>
          let opts := {| Opts.ctx := ctx; Opts.input := data |} in
          match proc_resolver p with
          | Resolves fn =>
              let '(res, out) := fn opts env in
              (match res with Normal v => Result v | Throw _ => Failure INTERNAL [] end,
               Resolving (call_path c) :: Invoked (call_path c) opts :: map Logged out)
          | Generates fn =>
              (Opened (fn opts),
               [Resolving (call_path c); Invoked (call_path c) opts])
          end
      end
  end.

(** *** Batches *)

(** Modelled from the spec: the calls of a batch run concurrently and finish
    in some [order]; the call at position [i] reads the clock as [envs i] and
    its outcome is stored in slot [i] (section 4.3, section 5). *)
Definition complete (r : Router) (envs : nat -> Env) (ctx : value)
    (calls : list Call) (st : list (option Outcome) * list Event) (i : nat)
  : list (option Outcome) * list Event :=
  match calls !! i with
  | None => st
  | Some c =>
      let '(o, tr) := dispatch r (envs i) ctx c in
      (<[i := Some o]> st.1, st.2 ++ tr)
  end.

(** Modelled from the spec: a batch starts with one empty slot per call and
    runs its calls to completion in the given order. *)
Definition runBatch (r : Router) (envs : nat -> Env) (ctx : value)
    (calls : list Call) (order : list nat)
  : list (option Outcome) * list Event :=
  fold_left (complete r envs ctx calls) order (replicate (length calls) None, []).

(** Modelled from the spec: the response is sent once every slot is filled,
    its entries in the order of the calls (section 4.3). *)
Fixpoint filled (slots : list (option Outcome)) : option (list Outcome) :=
  match slots with
  | [] => Some []
  | None :: _ => None
  | Some o :: rest =>
      match filled rest with
      | Some os => Some (o :: os)
      | None => None
      end
  end.

(** Modelled from the spec: a batched request; the context factory runs once,
    before any path is resolved (sections 2 and 4.2). *)
Definition handleBatch (o : NuxtHandlerOptions) (envs : nat -> Env)
    (order : list nat) (event : H3Event) (calls : list Call)
  : option (list Outcome) * list Event :=
  let ctx := createContext o event in
  let '(slots, tr) := runBatch (handler_router o) envs ctx calls order in
  (filled slots, ContextCreated ctx :: tr).

(** Modelled from the spec: a call issued alone is a batch of one. *)
Definition handleCall (o : NuxtHandlerOptions) (env : Env) (event : H3Event)
    (c : Call) : option (list Outcome) * list Event :=
  handleBatch o (fun _ => env) [0] event [c].

(** *** Subscriptions *)

(** Modelled from the spec: how a stream ends (sections 4.3 and 7). *)
Inductive Status : Type :=
| Open
| Completed
| Failed (e : Exn)
| Cancelled.

(** Modelled from the spec: the server side of one subscription (sections 4.3,
    5 and 9): the producer, which is the handler's generator while it is held
    and [None] once it is released; a one-place buffer between producer and
    connection writer; the values already pushed to the client. *)
Record Connection (g : Generator) : Type := {
  producer : option (gen_state g);
  buffered : option value;
  sent : list value;
  status : Status
}.
Arguments producer {g} c.
Arguments buffered {g} c.
Arguments sent {g} c.
Arguments status {g} c.

(** Modelled from the spec: a subscription starts with its producer held and
    nothing sent. *)
Definition connect (g : Generator) : Connection g :=
  {| producer := Some (gen_start g); buffered := None; sent := []; status := Open |}.

(** Modelled from the spec: what can happen on an open subscription. *)
Inductive Action : Type :=
| Produce   (* the server resumes the producer: [next()] *)
| Push      (* the writer sends the buffered value to the client *)
| Cancel.   (* the client cancels: [return()] on the generator *)

(** Modelled from the spec: one step of a subscription. Nothing moves once
    the stream has ended; cancellation drops the buffered value and releases
    the producer. *)
Definition step {g : Generator} (c : Connection g) (a : Action) : Connection g :=
  match status c with
  | Open =>
      match a with
      | Produce =>
          match buffered c, producer c with
          | None, Some s =>
              match gen_next g s with
              | Yield _ v s' =>
                  {| producer := Some s'; buffered := Some v;
                     sent := sent c; status := Open |}
              | Return _ =>
                  {| producer := None; buffered := None;
                     sent := sent c; status := Completed |}
              | Raise _ e =>
                  {| producer := None; buffered := None;
                     sent := sent c; status := Failed e |}
              end
          | _, _ => c
          end
      | Push =>
          match buffered c with
          | Some v =>
              {| producer := producer c; buffered := None;
                 sent := sent c ++ [v]; status := Open |}
          | None => c
          end
      | Cancel =>
          {| producer := None; buffered := None;
             sent := sent c; status := Cancelled |}
      end
  | _ => c
  end.

(** Modelled from the spec: a subscription under a schedule of actions. *)
Definition run {g : Generator} (c : Connection g) (schedule : list Action)
  : Connection g :=
  fold_left step schedule c.

(** The schedule of a client that listens to the end of a stream of [n]
    values: each value is produced and pushed, the last [next()] finds the
    end of the body. *)
Definition listen (n : nat) : list Action :=
  concat (replicate n [Produce; Push]) ++ [Produce].

(** The values a generator yields from state [s], by at most [fuel] calls of
    [next()], and how it ended if it did. *)
Fixpoint drain (g : Generator) (s : gen_state g) (fuel : nat)
  : list value * Status :=
  match fuel with
  | O => ([], Open)
  | S fuel' =>
      match gen_next g s with
      | Yield _ v s' => let '(vs, e) := drain g s' fuel' in (v :: vs, e)
      | Return _ => ([], Completed)
      | Raise _ e => ([], Failed e)
      end
  end.

(** The generator yields [vs] as its first values, in that order. *)
Inductive yields (g : Generator) : gen_state g -> list value -> Prop :=
| yields_nil s : yields g s []
| yields_cons s awaited v s' vs :
    gen_next g s = Yield awaited v s' ->
    yields g s' vs ->
    yields g s (v :: vs).

(** The generator yields exactly [vs] and then returns. *)
Inductive emits (g : Generator) : gen_state g -> list value -> Prop :=
| emits_return s awaited :
    gen_next g s = Return awaited ->
    emits g s []
| emits_yield s awaited v s' vs :
    gen_next g s = Yield awaited v s' ->
    emits g s' vs ->
    emits g s (v :: vs).

(** Modelled from the spec: what the client of a subscription request
    observes: the messages, how the stream ended and whether the producer was
    released; or the answer that refused the subscription. *)
Inductive Subscribed : Type :=
| Stream (messages : list value) (ended : Status) (released : bool)
| Refused (o : Outcome).

(** Modelled from the spec: a subscription request; the context factory runs
    once for the whole stream, before the path is resolved (section 4.2). *)
Definition handleSubscription (o : NuxtHandlerOptions) (env : Env)
    (schedule : list Action) (event : H3Event) (c : Call)
  : Subscribed * list Event :=
  let ctx := createContext o event in
  match dispatch (handler_router o) env ctx c with
  | (Opened g, tr) =>
      let conn := run (connect g) schedule in
      (Stream (sent conn) (status conn)
         (match producer conn with None => true | Some _ => false end),
       ContextCreated ctx :: tr ++ map Delivered (sent conn))
  | (out, tr) => (Refused out, ContextCreated ctx :: tr)
  end.

(** ** Vocabulary of the properties *)

(** The [text] field of a payload when it is there and a string. *)
Definition text_of (payload : value) : option string :=
  match payload with
  | VObj props =>
      match lookup_prop "text" props with
      | Some (VStr s) => Some s
      | _ => None
      end
  | _ => None
  end.

Definition text_rule : z.schema := z.object [("text", z.string [])].

(** The response slot for what a procedure call did. *)
Definition outcome_of (r : Called) : Outcome :=
  match r with
  | Returned v => Result v
  | Threw _ => Failure INTERNAL []
  | Started g => Opened g
  | Rejected issues => Failure VALIDATION_ERROR issues
  end.

(** The handler invocations an observer saw. *)
Definition invocations (tr : list Event) : list (string * Opts.t) :=
  flat_map (fun e => match e with Invoked p o => [(p, o)] | _ => [] end) tr.

(** [event.context.auth] *)
Definition event_auth (e : H3Event) : value :=
  default VUndefined (lookup_prop "auth" (context e)).

(** The contexts an observer saw being created. *)
Definition contexts_created (tr : list Event) : list value :=
  flat_map (fun e => match e with ContextCreated c => [c] | _ => [] end) tr.

(** Every handler invocation of a trace was given the context [ctx]. *)
Definition invoked_with (ctx : value) (tr : list Event) : Prop :=
  Forall (fun po => Opts.ctx po.2 = ctx) (invocations tr).

(** The five messages of [teststream] for the text [s]. *)
Definition messages (s : string) : list value :=
  (fun i => VStr ("hello " +:+ s +:+ " " +:+ i)) <$> ["0"; "1"; "2"; "3"; "4"].

(** What holds of a connection whose generator emits exactly [vs]. *)
Definition exact_inv (g : Generator) (vs : list value) (c : Connection g) : Prop :=
  match status c with
  | Open =>
      exists s rest, producer c = Some s /\ emits g s rest /\
                     sent c ++ option_list (buffered c) ++ rest = vs
  | Completed => sent c = vs
  | Failed _ => False
  | Cancelled => sent c `prefix_of` vs
  end.

(** What holds of a connection whose generator yields [vs] as its first
    values: while the stream is open the client side holds the first [n] of
    them and the producer is about to yield the others, or all of [vs] has
    been produced already; a stream that ended by itself has delivered all of
    [vs]; a stream that ended holds no producer and no buffered value. *)
Definition prefix_inv (g : Generator) (vs : list value) (c : Connection g) : Prop :=
  match status c with
  | Open =>
      exists s, producer c = Some s /\
        ((exists n, sent c ++ option_list (buffered c) = take n vs /\
                    yields g s (drop n vs))
         \/ vs `prefix_of` sent c ++ option_list (buffered c))
  | Completed | Failed _ =>
      vs `prefix_of` sent c /\ producer c = None /\ buffered c = None
  | Cancelled => producer c = None /\ buffered c = None
  end.

(** The outcome of the call at position [i], taken alone. *)
Definition outcome_at (r : Router) (envs : nat -> Env) (ctx : value)
    (i : nat) (c : Call) : Outcome :=
  (dispatch r (envs i) ctx c).1.

(** The slots of a batch after the call at position [i] has finished. *)
Definition fill (r : Router) (envs : nat -> Env) (ctx : value) (calls : list Call)
    (slots : list (option Outcome)) (i : nat) : list (option Outcome) :=
  match calls !! i with
  | None => slots
  | Some c => <[i := Some (outcome_at r envs ctx i c)]> slots
  end.

(** ** plugins/trpc.ts, the guide: "tRPC with Nuxt" *)

(** *** zod: fields that may be absent or null *)

Module zn.

(** A key of an object shape: [schema] or [schema.nullish()]. *)
Inductive field : Type :=
| required (sch : z.schema)
| nullish (sch : z.schema).

Definition parse_field (f : field) (v : value) : z.SafeParse :=
  match f, v with
  | nullish _, VUndefined => z.success VUndefined
  | nullish _, VNull => z.success VNull
  | nullish sch, _ => z.safeParse sch v
  | required sch, _ => z.safeParse sch v
  end.

(** The keys of the shape read from the input. A key whose value parses to
    [undefined] is kept in the output only when the input has the key. *)
Fixpoint parse_fields (shape : list (string * field)) (props : list (string * value))
  : list (string * value) * list z.issue :=
  match shape with
  | [] => ([], [])
  | (k, f) :: rest =>
      let '(out, iss) := parse_fields rest props in
      match parse_field f (default VUndefined (lookup_prop k props)) with
      | z.success VUndefined =>
          (match lookup_prop k props with
           | Some _ => (k, VUndefined) :: out
           | None => out
           end, iss)
      | z.success d => ((k, d) :: out, iss)
      | z.failure iss' => (out, map (z.under k) iss' ++ iss)
      end
  end.

(** [z.object(shape).safeParse(v)] for a shape with nullish keys. *)
Definition object (shape : list (string * field)) (v : value) : z.SafeParse :=
  match v with
  | VObj props =>
      match (parse_fields shape props).2 with
      | [] => z.success (VObj (parse_fields shape props).1)
      | iss => z.failure iss
      end
  | _ => z.failure [{| z.code := z.invalid_type z.t_object (z.type_of v); z.path := [] |}]
  end.

End zn.

(** Optional chaining [v?.k]. *)
Definition opt_prop (v : value) (k : string) : value :=
  match v with
  | VObj props => default VUndefined (lookup_prop k props)
  | _ => VUndefined
  end.

(** [a ?? b] *)
Definition nullish_coalesce (a b : value) : value :=
  match a with
  | VUndefined | VNull => b
  | _ => a
  end.

(** A procedure whose input rule is given by its parser: the rule is applied
    to the raw payload, and the resolver runs on the parsed input only. *)
Definition callWith (parse : value -> z.SafeParse) (resolver : Resolver)
    (env : Env) (ctx payload : value) : Called * Console :=
  match parse payload with
  | z.failure issues => (Rejected issues, [])
  | z.success data =>
      let opts := {| Opts.ctx := ctx; Opts.input := data |} in
      match resolver with
      | Resolves fn =>
          let '(res, out) := fn opts env in
          (match res with Normal v => Returned v | Throw e => Threw e end, out)
      | Generates fn => (Started (fn opts), [])
      end
  end.

Module Guide.
Section Guide.

(** [String.prototype.toLowerCase], which depends on the character set of
    the strings. *)
Variable toLowerCase : string -> string.


(** server/trpc/context.ts *)
Definition createContext (event : H3Event) : value := VObj [].

Definition publicProcedure : ProcedureBuilder := procedure.

(** server/trpc/routers/index.ts: [hello], whose rule has a nullish key. *)
Definition hello_input : value -> z.SafeParse :=
  zn.object [("text", zn.nullish (z.string []))].

Definition hello_resolver (opts : Opts.t) : Eff value :=
  ret (VObj [("greeting",
              VStr ("hello " +:+
                    ToString (nullish_coalesce (opt_prop (Opts.input opts) "text")
                                               (VStr "world"))))]).

Definition hello (env : Env) (ctx payload : value) : Called * Console :=
  callWith hello_input (Resolves hello_resolver) env ctx payload.


(** plugins/client.ts *)
Definition links : list Link := [ httpBatchLink "/api/trpc" ].

End Guide.
End Guide.

(** ** trpc_routers.md: the router with one procedure *)

Definition singleRouter : Router :=
  router [("hello", Leaf (procedure .> query (fun _ => ret (VStr "Hello world"))))].

(** ** Further vocabulary *)

(** [segments.join('.')] *)
Fixpoint join_path (segments : list string) : string :=
  match segments with
  | [] => ""
  | [seg] => seg
  | seg :: rest => seg +:+ "." +:+ join_path rest
  end.

(** The string in the field [k] of a payload when it is there and a string. *)
Definition string_field (k : string) (payload : value) : option string :=
  match payload with
  | VObj props =>
      match lookup_prop k props with
      | Some (VStr s) => Some s
      | _ => None
      end
  | _ => None
  end.

(** The resolver function of a query or mutation. *)
Definition resolver_fn (p : Procedure) (opts : Opts.t) : Eff value :=
  match proc_resolver p with
  | Resolves fn => fn opts
  | Generates _ => ret VUndefined
  end.

(** When the values of a generator arrive, in ms after the first [next()],
    and when it returns, within [fuel] calls of [next()]. *)
Fixpoint timeline (g : Generator) (s : gen_state g) (fuel : nat) (t : Z)
  : list (Z * value) * option Z :=
  match fuel with
  | O => ([], None)
  | S fuel' =>
      match gen_next g s with
      | Yield awaited v s' =>
          let t' := (t + foldr Z.add 0 awaited)%Z in
          let '(vs, e) := timeline g s' fuel' t' in ((t', v) :: vs, e)
      | Return awaited => ([], Some (t + foldr Z.add 0 awaited)%Z)
      | Raise _ _ => ([], None)
      end
  end.

(** The keys of a schema are pairwise different, at every level. *)
Fixpoint distinct_keys (sch : z.schema) : Prop :=
  match sch with
  | z.string _ => True
  | z.object shape =>
      NoDup (map fst shape) /\
      (fix all (sh : list (string * z.schema)) : Prop :=
         match sh with
         | [] => True
         | (_, sk) :: rest => distinct_keys sk /\ all rest
         end) shape
  end.

(** The fields an object schema reads from the properties of its input:
    the parsed fields and the issues, as in [z.safeParse]. *)
Definition object_fields (props : list (string * value))
  : list (string * z.schema) -> list (string * value) * list z.issue :=
  fix fields (shape : list (string * z.schema)) :=
    match shape with
    | [] => ([], [])
    | (k, sk) :: rest =>
        let '(out, iss) := fields rest in
        match z.safeParse sk (default VUndefined (lookup_prop k props)) with
        | z.success d => ((k, d) :: out, iss)
        | z.failure iss' => (out, map (z.under k) iss' ++ iss)
        end
    end.

(** * Properties *)

(** ** The model on small inputs *)

Example split_path_nested : split_path "user.getById" = ["user"; "getById"].
Proof. reflexivity. Qed.

Example split_path_empty : split_path "" = [""].
Proof. reflexivity. Qed.

Example resolve_router_node : resolve (MergedRouters.appRouter (fun _ => true)) "user" = None.
Proof. reflexivity. Qed.

Example safeParse_reports_every_field :
  z.safeParse (z.object [("title", z.string [z.min 5]); ("content", z.string [z.min 10])])
    (VObj [("title", VStr "abc")])
  = z.failure [ {| z.code := z.too_small 5; z.path := ["title"] |};
                {| z.code := z.invalid_type z.t_string z.t_undefined;
                   z.path := ["content"] |} ].
Proof. reflexivity. Qed.

Example create_spreads_the_input :
  (dispatch (MergedRouters.appRouter (fun _ => true)) {| now := 1700000000000 |} VNull
     {| call_path := "user.create";
        call_input := VObj [("name", VStr "Frodo"); ("email", VStr "f@shire.example")] |}).1
  = Result (VObj [("id", VStr "user_1700000000000");
                  ("name", VStr "Frodo"); ("email", VStr "f@shire.example")]).
Proof. reflexivity. Qed.

Example teststream_paced :
  gen_next (teststream_body {| Opts.ctx := VNull; Opts.input := VObj [("text", VStr "x")] |})
    (AtYield (VStr "x") 0)
  = Yield [1000%Z] (VStr "hello x 1") (AtYield (VStr "x") 1).
Proof. reflexivity. Qed.

(** ** The input rule of [hello] and [teststream] *)

Lemma hello_input : proc_input hello = Some text_rule.
Proof. reflexivity. Qed.

Lemma teststream_input : proc_input teststream = Some text_rule.
Proof. reflexivity. Qed.

Lemma text_rule_accepts payload s :
  text_of payload = Some s ->
  z.safeParse text_rule payload = z.success (VObj [("text", VStr s)]).
Proof.
  destruct payload as [| | | | |?|props]; simpl; try discriminate.
  destruct (lookup_prop "text" props) as [[]|]; simpl; try discriminate.
  by intros [= ->].
Qed.

(** A rejected payload comes back with one issue; on an object payload the
    issue names the [text] field. *)
Lemma text_rule_rejects payload :
  text_of payload = None ->
  exists i, z.safeParse text_rule payload = z.failure [i] /\
    z.path i = match payload with VObj _ => ["text"] | _ => [] end.
Proof.
  destruct payload as [| | | | |?|props]; simpl; intros H;
    try (eexists; split; reflexivity).
  destruct (lookup_prop "text" props) as [[]|]; simpl in *;
    try discriminate; eexists; split; reflexivity.
Qed.

Lemma text_rule_success payload data :
  z.safeParse text_rule payload = z.success data ->
  exists s, text_of payload = Some s /\ data = VObj [("text", VStr s)].
Proof.
  destruct (text_of payload) as [s|] eqn:E.
  - rewrite (text_rule_accepts _ _ E). intros [= <-]. eauto.
  - destruct (text_rule_rejects _ E) as (i & -> & _). discriminate.
Qed.

(** The dispatcher answers a resolved call with what calling the procedure
    gives. *)
Lemma dispatch_callProcedure r env ctx c p :
  resolve r (call_path c) = Some p ->
  (dispatch r env ctx c).1 = outcome_of (callProcedure p env ctx (call_input c)).1.
Proof.
  intros Hres. unfold dispatch, callProcedure. rewrite Hres.
  destruct (validate p (call_input c)); [|done].
  destruct (proc_resolver p) as [fn|fn]; [|done].
  by destruct (fn _ env) as [[] ?].
Qed.

(** ** C1 *)

(** C1: for every string [s], calling [hello] with the input [{text: s}]
    returns [{greeting: "hello " ++ s}], directly and through the router; with
    [{text: "world"}] it returns [{greeting: "hello world"}]. *)
Theorem hello_greets (s : string) (env : Env) (ctx : value) :
  callProcedure hello env ctx (VObj [("text", VStr s)])
    = (Returned (VObj [("greeting", VStr ("hello " +:+ s))]), [])
  /\ (dispatch appRouter env ctx
        {| call_path := "hello"; call_input := VObj [("text", VStr s)] |}).1
     = Result (VObj [("greeting", VStr ("hello " +:+ s))])
  /\ callProcedure hello env ctx (VObj [("text", VStr "world")])
     = (Returned (VObj [("greeting", VStr "hello world")]), []).
Proof. repeat split; reflexivity. Qed.

(** ** C3 and C9: invalid input *)

Lemma safeParse_failure_nonempty sch v issues :
  z.safeParse sch v = z.failure issues -> issues <> [].
Proof.
  destruct sch, v; simpl; try (intros [= <-]; discriminate).
  - destruct (flat_map _ _); intros [= <-]; discriminate.
  - match goal with |- context [match ?x.2 with _ => _ end] => destruct (x.2) end;
      intros [= <-]; discriminate.
Qed.

Lemma validate_failure_nonempty p v issues :
  validate p v = z.failure issues -> issues <> [].
Proof.
  unfold validate. destruct (proc_input p); [apply safeParse_failure_nonempty|].
  discriminate.
Qed.

Lemma dispatch_rejected r env ctx c p issues :
  resolve r (call_path c) = Some p ->
  validate p (call_input c) = z.failure issues ->
  dispatch r env ctx c = (Failure VALIDATION_ERROR issues, [Resolving (call_path c)]).
Proof. intros Hres Hbad. unfold dispatch. by rewrite Hres, Hbad. Qed.

Lemma resolve_hello_teststream path :
  path = "hello" \/ path = "teststream" ->
  exists p, resolve appRouter path = Some p /\ proc_input p = Some text_rule.
Proof. intros [-> | ->]; eexists; split; reflexivity. Qed.

Lemma dispatch_text_missing env ctx path payload :
  path = "hello" \/ path = "teststream" ->
  text_of payload = None ->
  exists i,
    z.path i = match payload with VObj _ => ["text"] | _ => [] end /\
    dispatch appRouter env ctx {| call_path := path; call_input := payload |}
      = (Failure VALIDATION_ERROR [i], [Resolving path]).
Proof.
  intros Hpath Hbad.
  destruct (resolve_hello_teststream _ Hpath) as (p & Hres & Hin).
  destruct (text_rule_rejects _ Hbad) as (i & Hfail & Hi).
  exists i. split; [done|].
  apply (dispatch_rejected _ _ _ {| call_path := path; call_input := payload |} p);
    [done|]. unfold validate. by rewrite Hin.
Qed.

(** C3: a request whose input fails the input rule of the procedure its path
    resolves to is answered with VALIDATION_ERROR carrying the (non-empty)
    list of issues, and the trace shows no handler invocation. For [hello]
    and [teststream] this is every payload whose [text] field is not a
    string, and on an object payload the issue names the field [text]. *)
Theorem invalid_input_is_rejected
    (r : Router) (env : Env) (ctx : value) (c : Call) (p : Procedure)
    (issues : list z.issue)
    (Hres : resolve r (call_path c) = Some p)
    (Hbad : validate p (call_input c) = z.failure issues) :
  dispatch r env ctx c = (Failure VALIDATION_ERROR issues, [Resolving (call_path c)])
  /\ issues <> []
  /\ invocations (dispatch r env ctx c).2 = []
  /\ (forall path payload,
        path = "hello" \/ path = "teststream" ->
        text_of payload = None ->
        exists i,
          z.path i = match payload with VObj _ => ["text"] | _ => [] end /\
          dispatch appRouter env ctx {| call_path := path; call_input := payload |}
            = (Failure VALIDATION_ERROR [i], [Resolving path])).
Proof.
  rewrite (dispatch_rejected _ env ctx _ _ _ Hres Hbad).
  repeat split.
  - by eapply validate_failure_nonempty.
  - intros. by apply dispatch_text_missing.
Qed.

(** C9 as amended: [hello] rejects every payload whose [text] field is absent,
    null or not a string (the empty object among them); whatever it returns is
    [{greeting: "hello " ++ s}] for the string [s] in the payload's [text]
    field, so it returns [{greeting: "hello world"}] only on payloads whose
    [text] field is ["world"]. *)
Theorem hello_requires_text (env : Env) (ctx payload : value) :
  (text_of payload = None ->
     exists i, callProcedure hello env ctx payload = (Rejected [i], []))
  /\ (forall v, (callProcedure hello env ctx payload).1 = Returned v ->
        exists s, text_of payload = Some s /\
                  v = VObj [("greeting", VStr ("hello " +:+ s))])
  /\ ((callProcedure hello env ctx payload).1
        = Returned (VObj [("greeting", VStr "hello world")]) ->
      text_of payload = Some "world").
Proof.
  assert (Hret : forall v, (callProcedure hello env ctx payload).1 = Returned v ->
            exists s, text_of payload = Some s /\
                      v = VObj [("greeting", VStr ("hello " +:+ s))]).
  { intros v. unfold callProcedure, validate. rewrite hello_input.
    destruct (z.safeParse text_rule payload) as [data|iss] eqn:E; [|discriminate].
    destruct (text_rule_success _ _ E) as (s & Hs & ->).
    simpl. intros [= <-]. eauto. }
  split; [|split; [exact Hret|]].
  - intros Hbad. destruct (text_rule_rejects _ Hbad) as (i & Hfail & _).
    exists i. unfold callProcedure, validate. by rewrite hello_input, Hfail.
  - intros H. destruct (Hret _ H) as (s & Hs & Heq).
    simpl in Heq. by injection Heq as ->.
Qed.

Lemma hello_requires_text_witness :
  (exists i, callProcedure hello {| now := 0 |} VNull (VObj []) = (Rejected [i], []))
  /\ text_of (VObj [("text", VStr "world"); ("extra", VNum 1)]) = Some "world".
Proof.
  split.
  - apply (proj1 (hello_requires_text {| now := 0 |} VNull (VObj []))).
    reflexivity.
  - apply (proj2 (proj2 (hello_requires_text {| now := 0 |} VNull
             (VObj [("text", VStr "world"); ("extra", VNum 1)])))).
    reflexivity.
Defined.

(** C9 as stated fails: the object rule strips unknown keys, so a payload
    with a further field beside [text: "world"] is accepted and answered with
    [{greeting: "hello world"}] as well. *)
Lemma hello_world_from_larger_payload :
  VObj [("text", VStr "world"); ("extra", VNum 1)] <> VObj [("text", VStr "world")]
  /\ callProcedure hello {| now := 0 |} VNull
       (VObj [("text", VStr "world"); ("extra", VNum 1)])
     = (Returned (VObj [("greeting", VStr "hello world")]), []).
Proof. split; [discriminate | reflexivity]. Qed.

Lemma invalid_input_is_rejected_witness :
  dispatch appRouter {| now := 0 |} VNull
    {| call_path := "hello"; call_input := VObj [] |}
  = (Failure VALIDATION_ERROR
       [{| z.code := z.invalid_type z.t_string z.t_undefined; z.path := ["text"] |}],
     [Resolving "hello"]).
Proof.
  exact (proj1 (invalid_input_is_rejected appRouter {| now := 0 |} VNull
                  {| call_path := "hello"; call_input := VObj [] |} hello _
                  eq_refl eq_refl)).
Defined.

(** ** C4: unknown paths *)

(** C4: a call whose dotted path does not resolve in the router is answered
    with NOT_FOUND and the trace shows no handler invocation. In the merged
    router, [user.getById] with [{id: "123"}] resolves to [getById] and is
    answered with its result, while the bare path [getById] is NOT_FOUND. *)
Theorem unresolved_path_not_found
    (r : Router) (env : Env) (ctx : value) (c : Call)
    (Hnone : resolve r (call_path c) = None) :
  dispatch r env ctx c = (Failure NOT_FOUND [], [Resolving (call_path c)])
  /\ invocations (dispatch r env ctx c).2 = []
  /\ (forall re,
        resolve (MergedRouters.appRouter re) "user.getById"
          = Some MergedRouters.getById
        /\ (dispatch (MergedRouters.appRouter re) env ctx
              {| call_path := "user.getById";
                 call_input := VObj [("id", VStr "123")] |}).1
           = Result (VObj [("id", VStr "123");
                           ("name", VStr "User 123");
                           ("email", VStr "user123@example.com")])
        /\ dispatch (MergedRouters.appRouter re) env ctx
             {| call_path := "getById";
                call_input := VObj [("id", VStr "123")] |}
           = (Failure NOT_FOUND [], [Resolving "getById"])).
Proof.
  unfold dispatch at 1 2. rewrite Hnone. repeat split; reflexivity.
Qed.

Lemma unresolved_path_not_found_witness :
  dispatch appRouter {| now := 0 |} VNull
    {| call_path := "hello.world"; call_input := VObj [("text", VStr "x")] |}
  = (Failure NOT_FOUND [], [Resolving "hello.world"]).
Proof.
  exact (proj1 (unresolved_path_not_found appRouter {| now := 0 |} VNull
                  {| call_path := "hello.world";
                     call_input := VObj [("text", VStr "x")] |} eq_refl)).
Defined.

(** ** C5: transport selection *)

(** C5: the link chain of the client plugin sends an operation to the
    streaming link when its type is [subscription] and to the batch link
    otherwise; two operations of the same type get the same transport
    whatever their id, path, input and context. *)
Theorem transport_by_kind (op1 op2 : Operation)
    (Hkind : op_type op1 = op_type op2) :
  createChain links op1 = createChain links op2
  /\ createChain links op1
     = Some (match op_type op1 with
             | Subscription => Streaming "/api/trpc"
             | Query | Mutation => Batched "/api/trpc"
             end).
Proof.
  unfold links; simpl. rewrite <- Hkind.
  split; [reflexivity|]. by destruct (op_type op1).
Qed.

Lemma transport_by_kind_witness :
  createChain links
    {| op_id := 1; op_type := Subscription; op_path := "teststream";
       op_input := VObj [("text", VStr "a")]; op_context := [] |}
  = createChain links
      {| op_id := 2; op_type := Subscription; op_path := "hello";
         op_input := VNull; op_context := [("k", VBool true)] |}.
Proof.
  exact (proj1 (transport_by_kind
                  {| op_id := 1; op_type := Subscription; op_path := "teststream";
                     op_input := VObj [("text", VStr "a")]; op_context := [] |}
                  {| op_id := 2; op_type := Subscription; op_path := "hello";
                     op_input := VNull; op_context := [("k", VBool true)] |}
                  eq_refl)).
Defined.

(** ** C8 and C10: the request context *)

Lemma contexts_created_app tr1 tr2 :
  contexts_created (tr1 ++ tr2) = contexts_created tr1 ++ contexts_created tr2.
Proof. apply flat_map_app. Qed.

Lemma invoked_with_app ctx tr1 tr2 :
  invoked_with ctx tr1 -> invoked_with ctx tr2 -> invoked_with ctx (tr1 ++ tr2).
Proof.
  unfold invoked_with, invocations. rewrite flat_map_app, Forall_app. tauto.
Qed.

Lemma logged_quiet ctx out :
  contexts_created (map Logged out) = [] /\ invoked_with ctx (map Logged out).
Proof. induction out; simpl; split; try constructor; tauto. Qed.

Lemma delivered_quiet ctx vs :
  contexts_created (map Delivered vs) = [] /\ invoked_with ctx (map Delivered vs).
Proof. induction vs; simpl; split; try constructor; tauto. Qed.

Lemma dispatch_trace r env ctx c :
  contexts_created (dispatch r env ctx c).2 = [] /\
  invoked_with ctx (dispatch r env ctx c).2.
Proof.
  unfold dispatch.
  destruct (resolve r (call_path c)) as [p|]; [|by split; [|constructor]].
  destruct (validate p (call_input c)); [|by split; [|constructor]].
  destruct (proc_resolver p) as [fn|fn].
  - destruct (fn _ env) as [res out]. simpl.
    destruct (logged_quiet ctx out) as [H1 H2]. split; [done|].
    by constructor.
  - simpl. split; [done|]. by repeat constructor.
Qed.

Lemma runBatch_trace r envs ctx calls order st :
  contexts_created st.2 = [] -> invoked_with ctx st.2 ->
  contexts_created (fold_left (complete r envs ctx calls) order st).2 = [] /\
  invoked_with ctx (fold_left (complete r envs ctx calls) order st).2.
Proof.
  revert st. induction order as [|i order IH]; intros st H1 H2; [done|].
  simpl. apply IH; unfold complete; destruct (calls !! i) as [c|]; try done;
    pose proof (dispatch_trace r (envs i) ctx c) as [Hc Hi];
    destruct (dispatch r (envs i) ctx c) as [o tr]; simpl in *.
  - by rewrite contexts_created_app, H1, Hc.
  - by apply invoked_with_app.
Qed.

(** C8: the trace of every request, batched or subscription, starts with the
    one creation of its context, made from the event of that request; no
    other context is created after it, whatever the number of calls or of
    delivered values, so it precedes every path resolution; and every handler
    invoked for the request is given that context. The handler of the
    repository uses [createTRPCContext] as the factory. *)
Theorem context_created_once (o : NuxtHandlerOptions) (event : H3Event) :
  (forall envs order calls, exists rest,
      (handleBatch o envs order event calls).2
        = ContextCreated (createContext o event) :: rest
      /\ contexts_created rest = []
      /\ invoked_with (createContext o event) rest)
  /\ (forall env schedule c, exists rest,
        (handleSubscription o env schedule event c).2
          = ContextCreated (createContext o event) :: rest
        /\ contexts_created rest = []
        /\ invoked_with (createContext o event) rest)
  /\ createContext nuxtHandler = createTRPCContext.
Proof.
  split; [|split; [|reflexivity]].
  - intros envs order calls. unfold handleBatch, runBatch.
    pose proof (runBatch_trace (handler_router o) envs (createContext o event)
                  calls order (replicate (length calls) None, [])
                  eq_refl (Forall_nil_2 _)) as [H1 H2].
    destruct (fold_left _ order _) as [slots tr]. simpl in *. eauto.
  - intros env schedule c. unfold handleSubscription.
    pose proof (dispatch_trace (handler_router o) env (createContext o event) c)
      as [H1 H2].
    destruct (dispatch _ env _ c) as [[v|g|code d] tr]; simpl in *; eauto.
    eexists; split; [reflexivity|].
    destruct (delivered_quiet (createContext o event)
                (sent (run (connect g) schedule))) as [D1 D2].
    split; [by rewrite contexts_created_app, H1, D1 | by apply invoked_with_app].
Qed.

(** C10: the context is the object with the single field [auth], copied from
    [event.context.auth]; two events with equal [auth] give equal contexts,
    and the server answers and behaves the same on both, whatever else the
    events carry. *)
Theorem context_depends_on_auth_only (e1 e2 : H3Event)
    (Hauth : event_auth e1 = event_auth e2) :
  createTRPCContext e1 = VObj [("auth", event_auth e1)]
  /\ createTRPCContext e1 = createTRPCContext e2
  /\ (forall envs order calls,
        handleBatch nuxtHandler envs order e1 calls
        = handleBatch nuxtHandler envs order e2 calls)
  /\ (forall env schedule c,
        handleSubscription nuxtHandler env schedule e1 c
        = handleSubscription nuxtHandler env schedule e2 c).
Proof.
  assert (Hctx : createTRPCContext e1 = createTRPCContext e2).
  { unfold createTRPCContext. fold (event_auth e1) (event_auth e2).
    by rewrite Hauth. }
  repeat split; try done.
  - intros. unfold handleBatch. simpl createContext. by rewrite Hctx.
  - intros. unfold handleSubscription. simpl createContext. by rewrite Hctx.
Qed.

Lemma context_depends_on_auth_only_witness :
  createTRPCContext
    {| method := "GET"; url := "/api/trpc/hello"; headers := [];
       context := [("auth", VStr "token")] |}
  = createTRPCContext
      {| method := "POST"; url := "/api/trpc/teststream";
         headers := [("cookie", "a=b")];
         context := [("session", VNum 7); ("auth", VStr "token")] |}.
Proof.
  exact (proj1 (proj2 (context_depends_on_auth_only
    {| method := "GET"; url := "/api/trpc/hello"; headers := [];
       context := [("auth", VStr "token")] |}
    {| method := "POST"; url := "/api/trpc/teststream";
       headers := [("cookie", "a=b")];
       context := [("session", VNum 7); ("auth", VStr "token")] |}
    eq_refl))).
Defined.

(** ** C6: batching *)

Section Batch.
Variables (r : Router) (envs : nat -> Env) (ctx : value) (calls : list Call).

Lemma complete_slots order st :
  (fold_left (complete r envs ctx calls) order st).1 = fold_left (fill r envs ctx calls) order st.1.
Proof.
  revert st. induction order as [|i order IH]; intros st; [done|].
  simpl. rewrite IH. f_equal. unfold complete, fill, outcome_at.
  destruct (calls !! i) as [c|]; [|done].
  by destruct (dispatch r (envs i) ctx c).
Qed.

Lemma fill_length order slots :
  length (fold_left (fill r envs ctx calls) order slots) = length slots.
Proof.
  revert slots. induction order as [|i order IH]; intros slots; [done|].
  simpl. rewrite IH. unfold fill. destruct (calls !! i); [|done].
  by rewrite length_insert.
Qed.

Lemma fill_untouched order slots i :
  i ∉ order -> fold_left (fill r envs ctx calls) order slots !! i = slots !! i.
Proof.
  revert slots. induction order as [|j order IH]; intros slots Hi; [done|].
  apply not_elem_of_cons in Hi as [Hne Hi]. simpl. rewrite IH by done.
  unfold fill. destruct (calls !! j); [|done].
  by rewrite list_lookup_insert_ne.
Qed.

Lemma fill_completed order slots i c :
  length slots = length calls ->
  calls !! i = Some c ->
  NoDup order ->
  i ∈ order ->
  fold_left (fill r envs ctx calls) order slots !! i = Some (Some (outcome_at r envs ctx i c)).
Proof.
  revert slots. induction order as [|j order IH]; intros slots Hlen Hc Hnd Hi.
  - by apply elem_of_nil in Hi.
  - apply NoDup_cons in Hnd as [Hj Hnd]. simpl.
    apply elem_of_cons in Hi as [-> | Hi].
    + rewrite fill_untouched by done. unfold fill. rewrite Hc.
      apply list_lookup_insert_eq. rewrite Hlen. by eapply lookup_lt_Some.
    + apply IH; try done. unfold fill. destruct (calls !! j); [|done].
      by rewrite length_insert.
Qed.

Lemma filled_Some (outs : list Outcome) : filled (Some <$> outs) = Some outs.
Proof. induction outs as [|o outs IH]; csimpl; [done|]. by rewrite IH. Qed.

Lemma runBatch_slots order :
  order ≡ₚ seq 0 (length calls) ->
  (runBatch r envs ctx calls order).1 = Some <$> imap (outcome_at r envs ctx) calls.
Proof.
  intros Hperm. unfold runBatch. rewrite complete_slots. simpl.
  apply list_eq. intros i.
  rewrite list_lookup_fmap, list_lookup_imap.
  destruct (calls !! i) as [c|] eqn:Hc; simpl.
  - apply fill_completed; try done.
    + by rewrite length_replicate.
    + rewrite Hperm. apply NoDup_seq.
    + rewrite Hperm. apply elem_of_seq. apply lookup_lt_Some in Hc. lia.
  - apply lookup_ge_None. rewrite fill_length, length_replicate.
    by apply lookup_ge_None.
Qed.

End Batch.

Lemma handleCall_outcome o env event c :
  (handleCall o env event c).1
  = Some [(dispatch (handler_router o) env (createContext o event) c).1].
Proof.
  unfold handleCall, handleBatch, runBatch. simpl.
  unfold complete. simpl.
  by destruct (dispatch (handler_router o) env (createContext o event) c).
Qed.

(** C6: a batch of N calls whose handlers finish in any order (any
    permutation of the positions) is answered with exactly N entries, and the
    entry at each position is the answer the call at that position gets when
    it is issued alone. *)
Theorem batch_preserves_results
    (o : NuxtHandlerOptions) (envs : nat -> Env) (order : list nat)
    (event : H3Event) (calls : list Call)
    (Hperm : order ≡ₚ seq 0 (length calls)) :
  exists outs,
    (handleBatch o envs order event calls).1 = Some outs
    /\ length outs = length calls
    /\ forall i c, calls !! i = Some c ->
         exists out, outs !! i = Some out
                     /\ (handleCall o (envs i) event c).1 = Some [out].
Proof.
  exists (imap (outcome_at (handler_router o) envs (createContext o event)) calls).
  split; [|split].
  - unfold handleBatch.
    pose proof (runBatch_slots (handler_router o) envs (createContext o event)
                  calls order Hperm) as Hslots.
    destruct (runBatch _ envs _ calls order) as [slots tr]. simpl in *.
    rewrite Hslots. apply filled_Some.
  - apply length_imap.
  - intros i c Hc. eexists. split.
    + rewrite list_lookup_imap, Hc. reflexivity.
    + by rewrite handleCall_outcome.
Qed.

Lemma batch_preserves_results_witness :
  (handleBatch nuxtHandler (fun _ => {| now := 0 |}) [1; 0]
     {| method := "GET"; url := "/api/trpc/hello,hello"; headers := [];
        context := [] |}
     [ {| call_path := "hello"; call_input := VObj [("text", VStr "a")] |};
       {| call_path := "hello"; call_input := VObj [] |} ]).1
  <> None.
Proof.
  destruct (batch_preserves_results nuxtHandler (fun _ => {| now := 0 |}) [1; 0]
     {| method := "GET"; url := "/api/trpc/hello,hello"; headers := [];
        context := [] |}
     [ {| call_path := "hello"; call_input := VObj [("text", VStr "a")] |};
       {| call_path := "hello"; call_input := VObj [] |} ]) as (outs & -> & _).
  - simpl. apply perm_swap.
  - discriminate.
Defined.

(** ** C2 and C7: subscriptions *)

Lemma run_app {g} (c : Connection g) s1 s2 : run c (s1 ++ s2) = run (run c s1) s2.
Proof. apply fold_left_app. Qed.

Lemma step_ended {g} (c : Connection g) a : status c <> Open -> step c a = c.
Proof. unfold step. by destruct (status c). Qed.

Lemma run_ended {g} (c : Connection g) schedule :
  status c <> Open -> run c schedule = c.
Proof.
  induction schedule as [|a schedule IH]; intros H; [done|].
  simpl. rewrite step_ended by done. by apply IH.
Qed.

Lemma emits_yields g s vs : emits g s vs -> yields g s vs.
Proof. induction 1; econstructor; eauto. Qed.

(** *** A stream that is listened to *)

Lemma exact_inv_step g vs (c : Connection g) a :
  exact_inv g vs c -> exact_inv g vs (step c a).
Proof.
  unfold exact_inv, step. destruct c as [p b sn st]; simpl.
  destruct st; try done.
  intros (s & rest & -> & Hem & Hvs).
  destruct a; simpl.
  - destruct b as [v|]; simpl in *; [by eauto 6|].
    inversion Hem as [? aw Hn | ? aw v s' vs' Hn Hem']; subst; rewrite Hn; simpl.
    + by rewrite app_nil_r.
    + by exists s', vs'.
  - destruct b as [v|]; simpl in *; [|by eauto 6].
    exists s, rest. by rewrite <- app_assoc.
  - subst vs. by eexists.
Qed.

Lemma exact_inv_run g vs (c : Connection g) schedule :
  exact_inv g vs c -> exact_inv g vs (run c schedule).
Proof.
  revert c. induction schedule as [|a schedule IH]; intros c H; [done|].
  simpl. by apply IH, exact_inv_step.
Qed.

Lemma exact_inv_connect g vs : emits g (gen_start g) vs -> exact_inv g vs (connect g).
Proof. intros H. simpl. by exists (gen_start g), vs. Qed.

(** Under any schedule the client holds a prefix of the emitted values, and
    all of them once the stream has completed. *)
Lemma delivery_exact g vs schedule :
  emits g (gen_start g) vs ->
  sent (run (connect g) schedule) `prefix_of` vs /\
  (status (run (connect g) schedule) = Completed ->
   sent (run (connect g) schedule) = vs).
Proof.
  intros Hem.
  pose proof (exact_inv_run g vs _ schedule (exact_inv_connect g vs Hem)) as H.
  unfold exact_inv in H. destruct (status (run (connect g) schedule)).
  - destruct H as (s & rest & _ & _ & <-). split; [by eexists | done].
  - by subst.
  - done.
  - done.
Qed.

(** A client that listens to the end receives everything. *)
Lemma listen_all g s vs sn :
  emits g s vs ->
  run {| producer := Some s; buffered := None; sent := sn; status := Open |}
      (listen (length vs))
  = {| producer := None; buffered := None; sent := sn ++ vs; status := Completed |}.
Proof.
  intros Hem. revert sn.
  induction Hem as [s aw Hn | s aw v s' vs Hn Hem IH]; intros sn.
  - unfold listen, run, step; simpl. rewrite Hn. by rewrite app_nil_r.
  - replace (listen (length (v :: vs))) with ([Produce; Push] ++ listen (length vs))
      by (unfold listen; simpl; done).
    rewrite run_app. unfold run at 2, step; simpl. rewrite Hn; simpl.
    fold (@run g). rewrite IH. by rewrite <- app_assoc.
Qed.

Lemma drain_emits g s vs :
  emits g s vs -> drain g s (S (length vs)) = (vs, Completed).
Proof.
  induction 1 as [s aw Hn | s aw v s' vs Hn Hem IH].
  - simpl. by rewrite Hn.
  - change (drain g s (S (length (v :: vs))))
      with (match gen_next g s with
            | Yield _ v s' =>
                let '(vs, e) := drain g s' (S (length vs)) in (v :: vs, e)
            | Return _ => ([], Completed)
            | Raise _ e => ([], Failed e)
            end).
    by rewrite Hn, IH.
Qed.

Lemma teststream_emits ctx s :
  emits (teststream_body {| Opts.ctx := ctx; Opts.input := VObj [("text", VStr s)] |})
        Fresh (messages s).
Proof.
  unfold messages; csimpl.
  do 5 (eapply emits_yield; [reflexivity|]).
  eapply emits_return. reflexivity.
Qed.

(** C2: for every string [s], the [teststream] handler called with
    [{text: s}] yields exactly the five strings ["hello " ++ s ++ " " ++ i],
    i = 0..4, in that order, and then returns. Whatever the interleaving of
    producing, pushing and cancelling, the client holds a prefix of these
    five, and all five whenever the stream has completed; a client that
    listens to the end receives the five messages and then the completion. *)
Theorem teststream_five_messages (s : string) (env : Env) (event : H3Event) :
  let call := {| call_path := "teststream"; call_input := VObj [("text", VStr s)] |} in
  let g := teststream_body {| Opts.ctx := createTRPCContext event;
                              Opts.input := VObj [("text", VStr s)] |} in
  (dispatch appRouter env (createTRPCContext event) call).1 = Opened g
  /\ emits g (gen_start g) (messages s)
  /\ drain g (gen_start g) 6 = (messages s, Completed)
  /\ (forall schedule,
        sent (run (connect g) schedule) `prefix_of` messages s
        /\ (status (run (connect g) schedule) = Completed ->
            sent (run (connect g) schedule) = messages s))
  /\ (handleSubscription nuxtHandler env (listen 5) event call).1
     = Stream (messages s) Completed true.
Proof.
  intros call g.
  assert (Hem : emits g (gen_start g) (messages s)) by apply teststream_emits.
  split; [reflexivity|]. split; [exact Hem|]. split; [|split].
  - apply (drain_emits g _ _ Hem).
  - intros schedule. by apply delivery_exact.
  - pose proof (listen_all g (gen_start g) (messages s) [] Hem) as Hl.
    change (length (messages s)) with 5 in Hl.
    unfold handleSubscription.
    change (dispatch (handler_router nuxtHandler) env
              (createContext nuxtHandler event) call)
      with (Opened g, [Resolving "teststream";
                       Invoked "teststream"
                         {| Opts.ctx := createTRPCContext event;
                            Opts.input := VObj [("text", VStr s)] |}]).
    cbv beta iota. unfold connect. rewrite Hl. reflexivity.
Qed.

(** *** A stream that is cancelled *)

Lemma prefix_inv_produce g vs sn s :
  (exists n, sn = take n vs /\ yields g s (drop n vs)) \/ vs `prefix_of` sn ->
  match gen_next g s with
  | Yield _ v s' =>
      (exists n, sn ++ [v] = take n vs /\ yields g s' (drop n vs))
      \/ vs `prefix_of` sn ++ [v]
  | _ => vs `prefix_of` sn
  end.
Proof.
  intros [(n & -> & Hy) | Hp].
  - destruct (vs !! n) as [v0|] eqn:Hn.
    + rewrite (drop_S _ _ _ Hn) in Hy.
      inversion Hy as [| ? aw v s' vs' Hnext Hy']; subst. rewrite Hnext.
      left. exists (S n). by rewrite (take_S_r _ _ _ Hn).
    + apply lookup_ge_None in Hn. rewrite take_ge by done.
      destruct (gen_next g s); try done. right. by apply prefix_app_r.
  - destruct (gen_next g s); try done. right. by apply prefix_app_r.
Qed.

Lemma prefix_inv_step g vs (c : Connection g) a :
  prefix_inv g vs c -> prefix_inv g vs (step c a).
Proof.
  unfold prefix_inv, step. destruct c as [p b sn st]; simpl.
  destruct st; try done.
  intros (s & -> & H).
  destruct a; simpl.
  - destruct b as [v|]; simpl in *; [by eauto|].
    rewrite app_nil_r in H. apply (prefix_inv_produce g vs sn s) in H.
    destruct (gen_next g s) as [aw v s'|aw|aw e]; simpl; eauto.
  - destruct b as [v|]; simpl in *; [|by eauto].
    rewrite app_nil_r. eauto.
  - done.
Qed.

Lemma prefix_inv_run g vs (c : Connection g) schedule :
  prefix_inv g vs c -> prefix_inv g vs (run c schedule).
Proof.
  revert c. induction schedule as [|a schedule IH]; intros c H; [done|].
  simpl. by apply IH, prefix_inv_step.
Qed.

Lemma prefix_inv_connect g vs :
  yields g (gen_start g) vs -> prefix_inv g vs (connect g).
Proof. intros H. simpl. exists (gen_start g). split; [done|]. left. by exists 0. Qed.

(** C7: let the handler of a subscription yield [vs] = v1..vk in that order,
    and let the client cancel when it has received v1..vj, j < k. Then
    whatever happens afterwards, the client has received v1..vj and nothing
    else, the stream is cancelled, and the server holds neither the producer
    nor a value produced but not yet sent. *)
Theorem cancel_stops_delivery
    (g : Generator) (vs : list value) (j : nat) (before after : list Action)
    (Hyields : yields g (gen_start g) vs)
    (Hj : j < length vs)
    (Hreceived : sent (run (connect g) before) = take j vs) :
  let c := run (connect g) (before ++ Cancel :: after) in
  sent c = take j vs
  /\ status c = Cancelled
  /\ producer c = None
  /\ buffered c = None.
Proof.
  intros c. subst c. rewrite run_app. simpl.
  pose proof (prefix_inv_run g vs _ before (prefix_inv_connect g vs Hyields)) as H.
  set (c := run (connect g) before) in *.
  assert (Hc : sent (step c Cancel) = take j vs /\ status (step c Cancel) = Cancelled
               /\ producer (step c Cancel) = None /\ buffered (step c Cancel) = None).
  { unfold step, prefix_inv in *. destruct (status c) eqn:Hst; simpl.
    - done.
    - destruct H as ([k Hk] & _). rewrite Hreceived in Hk.
      apply (f_equal length) in Hk. rewrite length_take, length_app in Hk. lia.
    - destruct H as ([k Hk] & _). rewrite Hreceived in Hk.
      apply (f_equal length) in Hk. rewrite length_take, length_app in Hk. lia.
    - by rewrite Hst. }
  change (fold_left step after (step c Cancel)) with (run (step c Cancel) after).
  rewrite run_ended; [done|]. destruct Hc as (_ & -> & _). done.
Qed.

Lemma cancel_stops_delivery_witness :
  let g := teststream_body {| Opts.ctx := VNull;
                              Opts.input := VObj [("text", VStr "x")] |} in
  sent (run (connect g)
          ([Produce; Push; Produce; Push; Produce]
             ++ Cancel :: [Push; Produce; Push]))
  = [VStr "hello x 0"; VStr "hello x 1"].
Proof.
  intros g.
  apply (cancel_stops_delivery g (messages "x") 2
           [Produce; Push; Produce; Push; Produce] [Push; Produce; Push]).
  - apply emits_yields, teststream_emits.
  - simpl. lia.
  - reflexivity.
Defined.

(** * Further properties of the code *)

(** ** Paths and routers *)

Lemma split_path_nonempty s : split_path s <> [].
Proof.
  destruct s as [|c s]; simpl; [done|].
  destruct (Ascii.eqb c "."); [done|]. by destruct (split_path s).
Qed.

(** Joining the segments of a path gives the path back. *)
Lemma join_split_path s : join_path (split_path s) = s.
Proof.
  induction s as [|c s IH]; [done|]. simpl split_path.
  pose proof (split_path_nonempty s) as Hne.
  destruct (Ascii.eqb_spec c "."%char) as [-> | Hc].
  - destruct (split_path s) as [|seg segs]; [done|].
    change (join_path ("" :: seg :: segs))
      with ("" +:+ "." +:+ join_path (seg :: segs)).
    by rewrite IH.
  - destruct (split_path s) as [|seg segs]; [done|].
    destruct segs as [|seg' segs].
    + simpl in *. by rewrite IH.
    + change (join_path (String c seg :: seg' :: segs))
        with (String c (seg +:+ "." +:+ join_path (seg' :: segs))).
      f_equal. exact IH.
Qed.

Lemma split_path_inv s segments : split_path s = segments -> s = join_path segments.
Proof. intros <-. symmetry. apply join_split_path. Qed.

(** Which key of a router record a segment selects. *)
Ltac which_child :=
  repeat match goal with
         | H : context [String.eqb ?a ?b] |- _ =>
             destruct (String.eqb_spec a b); [subst|]
         end.

Lemma appRouter_resolve_inv path p :
  resolve appRouter path = Some p ->
  (path = "hello" /\ p = hello) \/ (path = "teststream" /\ p = teststream).
Proof.
  unfold resolve. intros H.
  destruct (split_path path) as [|seg rest] eqn:E; [by apply split_path_nonempty in E|].
  apply split_path_inv in E. subst path.
  simpl in H. which_child; try discriminate;
    destruct rest; try discriminate; injection H as <-; auto.
Qed.




(** X1: in [appRouter] a path resolves exactly when it is [hello] or
    [teststream], to the query and to the subscription of that name; longer
    and shorter paths, and paths with empty segments, do not resolve. *)
Theorem appRouter_paths (path : string) (p : Procedure) :
  resolve appRouter path = Some p
  <-> (path = "hello" /\ p = hello /\ proc_type p = Query)
      \/ (path = "teststream" /\ p = teststream /\ proc_type p = Subscription).
Proof.
  split.
  - intros H. apply appRouter_resolve_inv in H as [[-> ->] | [-> ->]]; auto.
  - intros [(-> & -> & _) | (-> & -> & _)]; reflexivity.
Qed.

(** X2: a call to a path that resolves in [appRouter], issued with the type
    the procedure declares, is sent through the streaming link exactly when
    the path is [teststream], and through the batch link otherwise. *)
Theorem appRouter_transport
    (path : string) (p : Procedure) (id : Z) (payload : value)
    (context : list (string * value))
    (Hres : resolve appRouter path = Some p) :
  createChain links
    {| op_id := id; op_type := proc_type p; op_path := path;
       op_input := payload; op_context := context |}
  = Some (if decide (path = "teststream")
          then Streaming "/api/trpc" else Batched "/api/trpc").
Proof.
  apply appRouter_resolve_inv in Hres as [[-> ->] | [-> ->]]; reflexivity.
Qed.

Lemma appRouter_transport_witness :
  createChain links
    {| op_id := 7; op_type := proc_type teststream; op_path := "teststream";
       op_input := VObj [("text", VStr "a")]; op_context := [] |}
  = Some (Streaming "/api/trpc").
Proof.
  exact (appRouter_transport "teststream" teststream 7
           (VObj [("text", VStr "a")]) [] eq_refl).
Defined.


(** ** Client links *)


(** X5: in the link chain of the repository the [splitLink] ends the chain:
    links added after it are never reached, and any number of [loggerLink]s
    before it leaves the transport as it is. *)
Theorem splitLink_ends_the_chain (n : nat) (extra : list Link) (op : Operation) :
  createChain
    (replicate n loggerLink
       ++ splitLink (fun op => bool_decide (op_type op = Subscription))
            (httpSubscriptionLink "/api/trpc") (httpBatchLink "/api/trpc")
       :: extra) op
  = createChain links op.
Proof. induction n as [|n IH]; [reflexivity|]. simpl. exact IH. Qed.

(** ** The guide's [hello] and [createUser] *)

(** A procedure of the builder is called as a procedure given by its parser. *)
Lemma callProcedure_callWith p env ctx payload :
  callProcedure p env ctx payload
  = callWith (validate p) (proc_resolver p) env ctx payload.
Proof. reflexivity. Qed.

(** What the guide's [hello] answers on a payload, by its [text] field. *)
Lemma guide_hello_cases env ctx payload :
  Guide.hello env ctx payload =
  match payload with
  | VObj props =>
      match default VUndefined (lookup_prop "text" props) with
      | VStr s => (Returned (VObj [("greeting", VStr ("hello " +:+ s))]), [])
      | VUndefined | VNull => (Returned (VObj [("greeting", VStr "hello world")]), [])
      | v => (Rejected [{| z.code := z.invalid_type z.t_string (z.type_of v);
                           z.path := ["text"] |}], [])
      end
  | v => (Rejected [{| z.code := z.invalid_type z.t_object (z.type_of v);
                       z.path := [] |}], [])
  end.
Proof.
  destruct payload as [| | | | |?|props]; try reflexivity.
  unfold Guide.hello, callWith, Guide.hello_input, zn.object. simpl.
  destruct (lookup_prop "text" props) as [[]|]; reflexivity.
Qed.

(** X6: the [hello] of the guide takes ["world"] for a [text] that is absent
    or null: it answers [{greeting: "hello world"}] on every object payload
    without a [text] field or with [text: null], also on [{}]; a string [s] in
    [text] gives [{greeting: "hello " ++ s}]. *)
Theorem guide_hello_defaults_to_world
    (env : Env) (ctx : value) (props : list (string * value)) :
  (lookup_prop "text" props = None \/ lookup_prop "text" props = Some VNull ->
   Guide.hello env ctx (VObj props)
   = (Returned (VObj [("greeting", VStr "hello world")]), []))
  /\ (forall s, lookup_prop "text" props = Some (VStr s) ->
      Guide.hello env ctx (VObj props)
      = (Returned (VObj [("greeting", VStr ("hello " +:+ s))]), [])).
Proof.
  rewrite guide_hello_cases. split.
  - by intros [-> | ->].
  - by intros s ->.
Qed.

(** X7: the [hello] of the repository is stricter than the [hello] of the
    guide. Whatever the repository's [hello] returns on a payload, the guide's
    returns as well; but on an object payload whose [text] is absent or null
    the guide's answers [{greeting: "hello world"}] while the repository's
    rejects the call. *)
Theorem hello_stricter_than_guide (env : Env) (ctx payload : value) :
  (forall v, (callProcedure hello env ctx payload).1 = Returned v ->
             (Guide.hello env ctx payload).1 = Returned v)
  /\ (forall props,
        payload = VObj props ->
        lookup_prop "text" props = None \/ lookup_prop "text" props = Some VNull ->
        (Guide.hello env ctx payload).1
          = Returned (VObj [("greeting", VStr "hello world")])
        /\ exists i, (callProcedure hello env ctx payload).1 = Rejected [i]).
Proof.
  rewrite guide_hello_cases. split.
  - intros v. unfold callProcedure, validate. rewrite hello_input.
    destruct (z.safeParse text_rule payload) as [data|iss] eqn:E; [|discriminate].
    destruct (text_rule_success _ _ E) as (s & Hs & ->).
    destruct payload as [| | | | |?|props]; try discriminate.
    simpl in Hs. destruct (lookup_prop "text" props) as [[]|]; try discriminate.
    injection Hs as ->. simpl. by intros [= <-].
  - intros props -> Htext. split; [by destruct Htext as [-> | ->]|].
    assert (Hnone : text_of (VObj props) = None)
      by (simpl; by destruct Htext as [-> | ->]).
    destruct (text_rule_rejects _ Hnone) as (i & Hfail & _).
    exists i. unfold callProcedure, validate. by rewrite hello_input, Hfail.
Qed.


(** ** Object rules *)

Lemma safeParse_object shape props :
  z.safeParse (z.object shape) (VObj props)
  = match (object_fields props shape).2 with
    | [] => z.success (VObj (object_fields props shape).1)
    | iss => z.failure iss
    end.
Proof. reflexivity. Qed.

Lemma safeParse_object_other shape v :
  (forall props, v <> VObj props) ->
  z.safeParse (z.object shape) v
  = z.failure [{| z.code := z.invalid_type z.t_object (z.type_of v); z.path := [] |}].
Proof. destruct v; try reflexivity. intros H. by destruct (H props). Qed.

Lemma object_fields_cons k sk rest props :
  object_fields props ((k, sk) :: rest)
  = match z.safeParse sk (default VUndefined (lookup_prop k props)) with
    | z.success d => ((k, d) :: (object_fields props rest).1, (object_fields props rest).2)
    | z.failure iss' =>
        ((object_fields props rest).1,
         map (z.under k) iss' ++ (object_fields props rest).2)
    end.
Proof. simpl. by destruct (object_fields props rest), (z.safeParse sk _). Qed.

(** Without issues every key of the shape has its parsed field, in the order
    of the shape. *)
Lemma object_fields_clean shape props :
  (object_fields props shape).2 = [] ->
  Forall2 (fun ksk kd =>
             kd.1 = ksk.1 /\
             z.safeParse ksk.2 (default VUndefined (lookup_prop ksk.1 props))
               = z.success kd.2)
          shape (object_fields props shape).1.
Proof.
  induction shape as [|[k sk] shape IH]; [constructor|].
  rewrite object_fields_cons.
  destruct (z.safeParse sk _) as [d|iss'] eqn:E; simpl.
  - intros H. constructor; [done | by apply IH].
  - intros H. apply app_eq_nil in H as [H _].
    apply safeParse_failure_nonempty in E. by destruct iss'.
Qed.

Lemma lookup_prop_None k (props : list (string * value)) :
  k ∉ map fst props -> lookup_prop k props = None.
Proof.
  induction props as [|[k' v] props IH]; [done|]. simpl.
  intros H. apply not_elem_of_cons in H as [Hne H].
  destruct (String.eqb_spec k k'); [done | by apply IH].
Qed.

Lemma lookup_prop_NoDup k v (props : list (string * value)) :
  NoDup (map fst props) -> (k, v) ∈ props -> lookup_prop k props = Some v.
Proof.
  induction props as [|[k' v'] props IH]; simpl; intros Hnd Hin.
  - by apply elem_of_nil in Hin.
  - apply NoDup_cons in Hnd as [Hk' Hnd].
    apply elem_of_cons in Hin as [[= -> ->] | Hin].
    + by rewrite String.eqb_refl.
    + destruct (String.eqb_spec k k') as [-> | _]; [|by apply IH].
      destruct Hk'. apply list_elem_of_fmap. by exists (k', v).
Qed.

Lemma object_fields_keys shape props :
  (object_fields props shape).2 = [] ->
  map fst (object_fields props shape).1 = map fst shape.
Proof.
  intros H. apply object_fields_clean in H.
  induction H as [|[k sk] [k' d] shape out [Hk _] _ IH]; [done|].
  simpl in *. by rewrite Hk, IH.
Qed.

(** The issues of an object are those of its failing fields, each under the
    key of its field, in the order of the shape. *)
Lemma object_fields_issues shape props :
  (object_fields props shape).2
  = flat_map (fun ksk =>
                match z.safeParse ksk.2 (default VUndefined (lookup_prop ksk.1 props)) with
                | z.success _ => []
                | z.failure iss => map (z.under ksk.1) iss
                end) shape.
Proof.
  induction shape as [|[k sk] shape IH]; [done|].
  rewrite object_fields_cons. simpl. rewrite <- IH.
  by destruct (z.safeParse sk _).
Qed.

(** X9: what an object rule hands to the handler has exactly the keys the
    rule declares, in the order of the rule: a field of the payload the rule
    does not name never reaches the handler. *)
Theorem object_rule_strips_unknown_keys
    (p : Procedure) (shape : list (string * z.schema)) (payload data : value)
    (Hrule : proc_input p = Some (z.object shape))
    (Hok : validate p payload = z.success data) :
  exists props out,
    payload = VObj props
    /\ data = VObj out
    /\ map fst out = map fst shape
    /\ forall k, k ∉ map fst shape -> lookup_prop k out = None.
Proof.
  unfold validate in Hok. rewrite Hrule in Hok.
  destruct payload as [| | | | |?|props]; try discriminate.
  rewrite safeParse_object in Hok.
  destruct (object_fields props shape).2 eqn:E; [|discriminate].
  injection Hok as <-. exists props, (object_fields props shape).1.
  pose proof (object_fields_keys shape props E) as Hkeys.
  repeat split; [done|]. intros k Hk. apply lookup_prop_None. by rewrite Hkeys.
Qed.

Lemma object_rule_strips_unknown_keys_witness :
  exists props out,
    VObj [("id", VStr "mine"); ("email", VStr "a@b.c"); ("name", VStr "Sam")]
      = VObj props
    /\ VObj [("name", VStr "Sam"); ("email", VStr "a@b.c")] = VObj out
    /\ map fst out = ["name"; "email"]
    /\ forall k, k ∉ ["name"; "email"] -> lookup_prop k out = None.
Proof.
  exact (object_rule_strips_unknown_keys (MergedRouters.create (fun _ => true))
           [("name", z.string [z.min 2]); ("email", z.string [z.email (fun _ => true)])]
           (VObj [("id", VStr "mine"); ("email", VStr "a@b.c"); ("name", VStr "Sam")])
           (VObj [("name", VStr "Sam"); ("email", VStr "a@b.c")])
           eq_refl eq_refl).
Defined.

(** X10: an object rule does not stop at the first failing field: the issues
    of a rejected object payload are the issues of every failing field, each
    under the key of its field, in the order in which the rule declares the
    fields. *)
Theorem object_rule_reports_every_field
    (shape : list (string * z.schema)) (props : list (string * value))
    (issues : list z.issue)
    (Hfail : z.safeParse (z.object shape) (VObj props) = z.failure issues) :
  issues
  = flat_map (fun ksk =>
                match z.safeParse ksk.2 (default VUndefined (lookup_prop ksk.1 props)) with
                | z.success _ => []
                | z.failure iss => map (z.under ksk.1) iss
                end) shape.
Proof.
  rewrite safeParse_object in Hfail. rewrite <- object_fields_issues.
  destruct (object_fields props shape).2; [discriminate|]. by injection Hfail.
Qed.

Lemma object_rule_reports_every_field_witness :
  [ {| z.code := z.too_small 2; z.path := ["name"] |};
    {| z.code := z.invalid_email; z.path := ["email"] |} ]
  = flat_map (fun ksk =>
                match z.safeParse ksk.2
                        (default VUndefined
                           (lookup_prop ksk.1
                              [("name", VStr "S"); ("email", VStr "nowhere")])) with
                | z.success _ => []
                | z.failure iss => map (z.under ksk.1) iss
                end)
      [("name", z.string [z.min 2]); ("email", z.string [z.email (fun _ => false)])].
Proof.
  exact (object_rule_reports_every_field
           [("name", z.string [z.min 2]); ("email", z.string [z.email (fun _ => false)])]
           [("name", VStr "S"); ("email", VStr "nowhere")]
           _ eq_refl).
Defined.

(** Induction on schemas through the fields of object shapes. *)
Lemma schema_nested_ind (P : z.schema -> Prop) :
  (forall checks, P (z.string checks)) ->
  (forall shape, Forall (fun ksk => P ksk.2) shape -> P (z.object shape)) ->
  forall sch, P sch.
Proof.
  intros Hs Ho. fix IH 1. intros [checks|shape]; [apply Hs|].
  apply Ho. revert shape. fix IHs 1. intros [|[k sk] shape].
  - constructor.
  - constructor; [apply IH | apply IHs].
Qed.

Lemma distinct_keys_object shape :
  distinct_keys (z.object shape) ->
  NoDup (map fst shape) /\ Forall (fun ksk => distinct_keys ksk.2) shape.
Proof.
  intros [Hnd Hall]. split; [done|]. clear Hnd.
  induction shape as [|[k sk] shape IH]; constructor.
  - apply Hall.
  - apply IH, Hall.
Qed.

Lemma object_fields_again props_out shape out :
  Forall2 (fun ksk kd => kd.1 = ksk.1 /\ z.safeParse ksk.2 kd.2 = z.success kd.2)
          shape out ->
  (forall k d, (k, d) ∈ out -> lookup_prop k props_out = Some d) ->
  object_fields props_out shape = (out, []).
Proof.
  induction 1 as [|[k sk] [k' d] shape out [Hk Hp] _ IH]; intros Hl; [done|].
  simpl in Hk, Hp. subst k'. rewrite object_fields_cons.
  rewrite (Hl k d) by apply list_elem_of_here. simpl. rewrite Hp.
  rewrite IH; [done|]. intros k0 d0 Hin. apply Hl. by apply list_elem_of_further.
Qed.

(** X11: validating is a projection. For a rule whose keys are pairwise
    different at every level, as in each rule of the repository, the data a
    successful validation hands to the handler passes the same rule again and
    comes back unchanged. *)
Theorem safeParse_idempotent (sch : z.schema) :
  distinct_keys sch ->
  forall v data, z.safeParse sch v = z.success data ->
                 z.safeParse sch data = z.success data.
Proof.
  induction sch as [checks | shape IH] using schema_nested_ind; intros Hd v data H.
  - destruct v; try discriminate. simpl in H.
    destruct (flat_map (z.run_check s) checks) eqn:E; [|discriminate].
    injection H as <-. simpl. by rewrite E.
  - apply distinct_keys_object in Hd as [Hnd Hall].
    destruct v as [| | | | |?|props]; try discriminate.
    rewrite safeParse_object in H.
    destruct (object_fields props shape).2 eqn:E; [|discriminate].
    injection H as <-.
    pose proof (object_fields_clean shape props E) as Hclean.
    pose proof (object_fields_keys shape props E) as Hkeys.
    rewrite safeParse_object.
    rewrite (object_fields_again _ shape (object_fields props shape).1); [done| |].
    + clear E Hkeys Hnd.
      induction Hclean as [|[k sk] [k' d] shape out [Hk Hp] _ IHc]; [constructor|].
      apply Forall_cons in IH as [IHsk IH]. apply Forall_cons in Hall as [Hsk Hall].
      constructor; [|by apply IHc]. split; [done|]. simpl in *. by eapply IHsk.
    + intros k d Hin. apply lookup_prop_NoDup; [by rewrite Hkeys | done].
Qed.

Lemma safeParse_idempotent_witness :
  z.safeParse (z.object [("title", z.string [z.min 5]); ("content", z.string [z.min 10])])
    (VObj [("title", VStr "Hello"); ("content", VStr "Ten letters")])
  = z.success (VObj [("title", VStr "Hello"); ("content", VStr "Ten letters")]).
Proof.
  apply (safeParse_idempotent
           (z.object [("title", z.string [z.min 5]); ("content", z.string [z.min 10])]))
    with (v := VObj [("content", VStr "Ten letters"); ("more", VNull);
                     ("title", VStr "Hello")]).
  - simpl. repeat split; try done. apply (bool_decide_unpack _). reflexivity.
  - reflexivity.
Defined.

(** ** The procedures of the merged router *)

(** X12: [user.getById] answers a payload whose [id] is a string [s] with
    [{id: s, name: "User " ++ s, email: "user" ++ s ++ "@example.com"}] and
    writes the one console line naming [s]; any other payload is rejected
    with one issue and nothing is written to the console. *)
Theorem getById_answers (env : Env) (ctx payload : value) :
  match string_field "id" payload with
  | Some s =>
      callProcedure MergedRouters.getById env ctx payload
      = (Returned (VObj [("id", VStr s);
                         ("name", VStr ("User " +:+ s));
                         ("email", VStr ("user" +:+ s +:+ "@example.com"))]),
         [[VStr ("Fetching user with ID: " +:+ s)]])
  | None =>
      exists i, callProcedure MergedRouters.getById env ctx payload
                = (Rejected [i], [])
  end.
Proof.
  destruct payload as [| | | | |?|props]; simpl; try (eexists; reflexivity).
  unfold callProcedure, validate. simpl.
  destruct (lookup_prop "id" props) as [[]|]; simpl;
    try (eexists; reflexivity); reflexivity.
Qed.

(** What [user.create] returns, and on which payloads. *)
Lemma create_returned re env ctx payload v :
  (callProcedure (MergedRouters.create re) env ctx payload).1 = Returned v ->
  exists n e,
    string_field "name" payload = Some n
    /\ string_field "email" payload = Some e
    /\ 2 <= String.length n
    /\ re e = true
    /\ v = VObj [("id", VStr ("user_" +:+ pretty (now env)));
                 ("name", VStr n); ("email", VStr e)].
Proof.
  destruct payload as [| | | | |?|props]; try discriminate.
  unfold callProcedure, validate. simpl.
  destruct (lookup_prop "name" props) as [[| | | |n| |]|];
    destruct (lookup_prop "email" props) as [[| | | |e| |]|];
    simpl; try discriminate;
    try (destruct (String.length _) as [|[|?]]; discriminate);
    try (destruct (re _); discriminate).
  destruct (String.length n) as [|[|len]] eqn:Hlen; simpl;
    destruct (re e) eqn:Hre; simpl; try discriminate.
  intros [= <-]. exists n, e. rewrite Hlen. repeat split; try done. lia.
Qed.

(** What [post.add] returns, and on which payloads. *)
Lemma add_returned env ctx payload v :
  (callProcedure MergedRouters.add env ctx payload).1 = Returned v ->
  exists t c,
    string_field "title" payload = Some t
    /\ string_field "content" payload = Some c
    /\ 5 <= String.length t
    /\ 10 <= String.length c
    /\ v = VObj [("id", VStr ("post_" +:+ pretty (now env)));
                 ("title", VStr t); ("content", VStr c)].
Proof.
  destruct payload as [| | | | |?|props]; try discriminate.
  unfold callProcedure, validate. cbn -[Nat.leb pretty].
  destruct (lookup_prop "title" props) as [[| | | |t| |]|];
    destruct (lookup_prop "content" props) as [[| | | |c| |]|];
    cbn -[Nat.leb pretty]; try discriminate;
    try (destruct (Nat.leb _ (String.length _)); discriminate).
  destruct (Nat.leb 5 (String.length t)) eqn:Ht; cbn -[Nat.leb pretty];
    destruct (Nat.leb 10 (String.length c)) eqn:Hc; cbn -[Nat.leb pretty];
    try discriminate.
  intros [= <-]. exists t, c.
  apply Nat.leb_le in Ht, Hc. by repeat split.
Qed.





Lemma generated_id_inj prefix t1 t2 :
  VStr (prefix +:+ pretty t1) = VStr (prefix +:+ pretty t2) <-> t1 = t2 :> Z.
Proof.
  split; [|by intros ->].
  intros [= H]. apply String.app_inj in H. by apply (inj pretty) in H.
Qed.

(** X15: the ids of [user.create] and [post.add] are as distinct as the
    clock readings. Two created users get the same id exactly when they were
    created at the same reading of the clock, whatever their names and
    e-mails, and so do two added posts. *)
Theorem generated_ids_follow_the_clock
    (re : string -> bool) (env1 env2 : Env) (ctx1 ctx2 p1 p2 v1 v2 : value) :
  ((callProcedure (MergedRouters.create re) env1 ctx1 p1).1 = Returned v1 ->
   (callProcedure (MergedRouters.create re) env2 ctx2 p2).1 = Returned v2 ->
   (opt_prop v1 "id" = opt_prop v2 "id" <-> now env1 = now env2))
  /\ ((callProcedure MergedRouters.add env1 ctx1 p1).1 = Returned v1 ->
      (callProcedure MergedRouters.add env2 ctx2 p2).1 = Returned v2 ->
      (opt_prop v1 "id" = opt_prop v2 "id" <-> now env1 = now env2)).
Proof.
  split; intros H1 H2.
  - apply create_returned in H1 as (n1 & e1 & _ & _ & _ & _ & ->).
    apply create_returned in H2 as (n2 & e2 & _ & _ & _ & _ & ->).
    apply generated_id_inj.
  - apply add_returned in H1 as (t1 & c1 & _ & _ & _ & _ & ->).
    apply add_returned in H2 as (t2 & c2 & _ & _ & _ & _ & ->).
    apply generated_id_inj.
Qed.

(** *** The spread in the resolvers *)

Lemma lookup_set_prop_eq k v props : lookup_prop k (set_prop k v props) = Some v.
Proof.
  induction props as [|[k' v'] props IH]; simpl.
  - by rewrite String.eqb_refl.
  - destruct (String.eqb_spec k k') as [-> | Hne]; simpl.
    + by rewrite String.eqb_refl.
    + destruct (String.eqb_spec k k'); [done | exact IH].
Qed.

Lemma lookup_set_prop_ne k k' v props :
  k <> k' -> lookup_prop k (set_prop k' v props) = lookup_prop k props.
Proof.
  intros Hne. induction props as [|[k0 v0] props IH]; simpl.
  - by destruct (String.eqb_spec k k').
  - destruct (String.eqb_spec k' k0) as [-> | Hne']; simpl.
    + by destruct (String.eqb_spec k k0).
    + destruct (String.eqb_spec k k0); [done | exact IH].
Qed.

Lemma lookup_spread_untouched k base more :
  k ∉ map fst more -> lookup_prop k (spread base more) = lookup_prop k base.
Proof.
  unfold spread. revert base.
  induction more as [|[k' v'] more IH]; intros base Hk; [done|].
  apply not_elem_of_cons in Hk as [Hne Hk]. simpl.
  rewrite IH by done. by apply lookup_set_prop_ne.
Qed.

(** In [{ ...base, ...more }] a key of [more] has the value [more] gives it. *)
Lemma lookup_spread_later k v base more :
  NoDup (map fst more) ->
  lookup_prop k more = Some v ->
  lookup_prop k (spread base more) = Some v.
Proof.
  revert base. induction more as [|[k' v'] more IH]; intros base Hnd Hl; [done|].
  apply NoDup_cons in Hnd as [Hk' Hnd]. simpl in Hl.
  change (spread base ((k', v') :: more)) with (spread (set_prop k' v' base) more).
  destruct (String.eqb_spec k k') as [-> | Hne].
  - injection Hl as ->. rewrite lookup_spread_untouched by done.
    apply lookup_set_prop_eq.
  - by apply IH.
Qed.

(** X16: the resolvers of [user.create] and [post.add] spread their input
    over the generated id. Run on an input object that has a field [id], the
    resolver returns that field as the id of the result, not the generated
    one; it is the input rule, which keeps [id] out of the input, that makes
    the generated id the result's id. *)
Theorem resolver_spreads_input_over_id
    (re : string -> bool) (env : Env) (ctx v : value)
    (props : list (string * value))
    (Hnd : NoDup (map fst props))
    (Hid : lookup_prop "id" props = Some v) :
  (exists out,
     (resolver_fn (MergedRouters.create re)
        {| Opts.ctx := ctx; Opts.input := VObj props |} env).1 = Normal (VObj out)
     /\ lookup_prop "id" out = Some v)
  /\ (exists out,
        (resolver_fn MergedRouters.add
           {| Opts.ctx := ctx; Opts.input := VObj props |} env).1 = Normal (VObj out)
        /\ lookup_prop "id" out = Some v).
Proof.
  split; eexists; (split; [reflexivity|]); by apply lookup_spread_later.
Qed.

Lemma resolver_spreads_input_over_id_witness :
  exists out,
    (resolver_fn (MergedRouters.create (fun _ => true))
       {| Opts.ctx := VNull;
          Opts.input := VObj [("name", VStr "Sam"); ("id", VStr "admin")] |}
       {| now := 5 |}).1 = Normal (VObj out)
    /\ lookup_prop "id" out = Some (VStr "admin").
Proof.
  apply (resolver_spreads_input_over_id (fun _ => true) {| now := 5 |} VNull
           (VStr "admin") [("name", VStr "Sam"); ("id", VStr "admin")]).
  - apply (bool_decide_unpack _). reflexivity.
  - reflexivity.
Defined.

(** ** Procedures without an input rule *)

(** X17: a procedure declared without [.input], as [post.getAll], [greeting]
    and the [hello] of the single router are, never rejects a call and does
    the same on every payload: whatever is sent, the resolver sees no input. *)
Theorem procedure_without_input_takes_anything
    (p : Procedure) (env : Env) (ctx payload1 payload2 : value)
    (Hnone : proc_input p = None) :
  callProcedure p env ctx payload1 = callProcedure p env ctx payload2
  /\ (forall issues, (callProcedure p env ctx payload1).1 <> Rejected issues).
Proof.
  unfold callProcedure, validate. rewrite Hnone.
  split; [done|].
  intros issues. destruct (proc_resolver p) as [fn|fn]; [|done].
  by destruct (fn _ env) as [[] ?].
Qed.

Lemma procedure_without_input_takes_anything_witness :
  callProcedure MergedRouters.getAll {| now := 0 |} VNull (VStr "anything")
  = callProcedure MergedRouters.getAll {| now := 0 |} VNull (VObj [("page", VNum 2)]).
Proof.
  exact (proj1 (procedure_without_input_takes_anything MergedRouters.getAll
                  {| now := 0 |} VNull (VStr "anything") (VObj [("page", VNum 2)])
                  eq_refl)).
Defined.

(** ** The [teststream] generator *)

(** X18: [teststream] never fails. On every payload the call is either
    rejected by the input rule, or the generator is started with the string
    [s] of the payload's [text] field, emits exactly the five messages for
    [s] and returns; under no schedule does the stream end as failed. *)
Theorem teststream_never_fails (env : Env) (ctx payload : value) :
  match text_of payload with
  | None => exists i, callProcedure teststream env ctx payload = (Rejected [i], [])
  | Some s =>
      let g := teststream_body {| Opts.ctx := ctx;
                                  Opts.input := VObj [("text", VStr s)] |} in
      callProcedure teststream env ctx payload = (Started g, [])
      /\ emits g (gen_start g) (messages s)
      /\ forall schedule e, status (run (connect g) schedule) <> Failed e
  end.
Proof.
  destruct (text_of payload) as [s|] eqn:E.
  - intros g. split; [|split].
    + unfold callProcedure, validate. rewrite teststream_input.
      by rewrite (text_rule_accepts _ _ E).
    + apply teststream_emits.
    + intros schedule e Hst.
      pose proof (exact_inv_run g (messages s) _ schedule
                    (exact_inv_connect g _ (teststream_emits ctx s))) as H.
      unfold exact_inv in H. by rewrite Hst in H.
  - destruct (text_rule_rejects _ E) as (i & Hfail & _). exists i.
    unfold callProcedure, validate. by rewrite teststream_input, Hfail.
Qed.

Lemma timeline_yield g s fuel t awaited v s' :
  gen_next g s = Yield awaited v s' ->
  timeline g s (S fuel) t
  = ((t + foldr Z.add 0 awaited, v)%Z
       :: (timeline g s' fuel (t + foldr Z.add 0 awaited)%Z).1,
     (timeline g s' fuel (t + foldr Z.add 0 awaited)%Z).2).
Proof. intros H. simpl. rewrite H. by destruct (timeline g s' fuel _). Qed.

Lemma timeline_return g s fuel t awaited :
  gen_next g s = Return awaited ->
  timeline g s (S fuel) t = ([], Some (t + foldr Z.add 0 awaited)%Z).
Proof. intros H. simpl. by rewrite H. Qed.

(** X19: the pacing of [teststream]. The first message is there at once,
    message [i] one second after message [i-1], and the generator returns one
    second after the fifth message: five timers of 1000 ms in all, also when
    more calls of [next()] are allowed than the six that are needed. *)
Theorem teststream_timeline (ctx : value) (s : string) (t : Z) (spare : nat) :
  timeline (teststream_body {| Opts.ctx := ctx;
                               Opts.input := VObj [("text", VStr s)] |})
           Fresh (6 + spare) t
  = (zip [t; t + 1000; t + 2000; t + 3000; t + 4000]%Z (messages s),
     Some (t + 5000)%Z).
Proof.
  change (6 + spare) with (S (S (S (S (S (S spare)))))).
  do 5 (erewrite timeline_yield by reflexivity; cbn [fst snd foldr]).
  erewrite timeline_return by reflexivity. cbn [foldr].
  unfold messages; csimpl. rewrite ?Z.add_0_r, <- ?Z.add_assoc. reflexivity.
Qed.


(** ** [hello] as a function of the text *)

Lemma hello_returned env ctx payload v :
  (callProcedure hello env ctx payload).1 = Returned v ->
  exists s, text_of payload = Some s /\ v = VObj [("greeting", VStr ("hello " +:+ s))].
Proof.
  unfold callProcedure, validate. rewrite hello_input.
  destruct (z.safeParse text_rule payload) as [data|iss] eqn:E; [|discriminate].
  destruct (text_rule_success _ _ E) as (s & Hs & ->).
  simpl. intros [= <-]. eauto.
Qed.

(** X21: the answer of [hello] is a function of the payload's [text] string
    and of nothing else, and it determines that string: two accepted calls
    return the same greeting exactly when their [text] fields are the same
    string, whatever the other fields of the payloads, the contexts and the
    clock readings are. *)
Theorem hello_depends_on_text_only
    (env1 env2 : Env) (ctx1 ctx2 p1 p2 v1 v2 : value)
    (H1 : (callProcedure hello env1 ctx1 p1).1 = Returned v1)
    (H2 : (callProcedure hello env2 ctx2 p2).1 = Returned v2) :
  v1 = v2 <-> text_of p1 = text_of p2.
Proof.
  apply hello_returned in H1 as (s1 & Hs1 & ->).
  apply hello_returned in H2 as (s2 & Hs2 & ->).
  rewrite Hs1, Hs2. split.
  - intros [= H]. apply String.app_inj in H. by subst.
  - by intros [= ->].
Qed.

Lemma hello_depends_on_text_only_witness :
  VObj [("greeting", VStr "hello a")] = VObj [("greeting", VStr "hello a")]
  <-> text_of (VObj [("text", VStr "a")])
      = text_of (VObj [("other", VNum 1); ("text", VStr "a")]).
Proof.
  exact (hello_depends_on_text_only {| now := 0 |} {| now := 9 |}
           VNull (VObj [("auth", VStr "k")])
           (VObj [("text", VStr "a")])
           (VObj [("other", VNum 1); ("text", VStr "a")])
           _ _ eq_refl eq_refl).
Defined.

(** ** Shapes with and without nullish keys *)

Lemma safeParse_defined sch v : z.safeParse sch v <> z.success VUndefined.
Proof.
  destruct sch, v; simpl; try discriminate.
  - by destruct (flat_map _ _).
  - match goal with |- context [match ?x.2 with _ => _ end] => by destruct (x.2) end.
Qed.

Lemma parse_fields_required props shape :
  zn.parse_fields (map (fun ksk => (ksk.1, zn.required ksk.2)) shape) props
  = object_fields props shape.
Proof.
  induction shape as [|[k sk] shape IH]; [done|].
  rewrite object_fields_cons. simpl. rewrite IH.
  destruct (object_fields props shape) as [out iss]; simpl.
  pose proof (safeParse_defined sk (default VUndefined (lookup_prop k props))) as Hd.
  destruct (z.safeParse sk _) as [[]|]; done.
Qed.

(** On a shape without nullish keys the parser of shapes with nullish keys is
    the object rule of [z]. *)
Lemma object_required shape v :
  zn.object (map (fun ksk => (ksk.1, zn.required ksk.2)) shape) v
  = z.safeParse (z.object shape) v.
Proof.
  destruct v as [| | | | |?|props]; try reflexivity.
  unfold zn.object. by rewrite parse_fields_required, safeParse_object.
Qed.
